(** * OWL/Turtle ontology to Neo4j uploader: a shallow embedding

    This development embeds [backend/ttl_to_neo4j_uploader.py] and states
    the properties of its label sanitizer, hierarchy extractor, root
    resolver, tree builder, graph uploader and orchestrator.

    Conventions.
    - A Python [str] is a [string]; a code point outside ASCII is its
      UTF-8 bytes, all of them >= 128.  Every string operation of the
      source used here ([replace] of an ASCII character, the character
      class [[^a-zA-Z0-9_]], [split] and [rstrip] on an ASCII character,
      [in]) acts on such bytes exactly as it acts on the code point.
    - A Python [dict] is an association list in insertion order (the
      iteration order of a dict); a [set] is a duplicate-free list whose
      iteration order is a parameter ([set_order]).
    - The Neo4j database is a list of nodes and a list of [SUBCLASS_OF]
      edges; the two Cypher statements of the source are state
      transformers on it. *)

From Stdlib Require Import Ascii.
From stdpp Require Import base list strings sets relations.


(** ** Strings *)

Module Str.

(** Python truthiness of a [str]: the empty string is falsy. *)
Definition truthy (s : string) : bool :=
  match s with
  | EmptyString => false
  | String _ _ => true
  end.

Definition is_digit (c : ascii) : bool :=
  let n := nat_of_ascii c in (48 <=? n) && (n <=? 57).

Definition is_upper (c : ascii) : bool :=
  let n := nat_of_ascii c in (65 <=? n) && (n <=? 90).

Definition is_lower (c : ascii) : bool :=
  let n := nat_of_ascii c in (97 <=? n) && (n <=? 122).

(** Membership in the character class [[a-zA-Z0-9_]]. *)
Definition is_word (c : ascii) : bool :=
  is_lower c || is_upper c || is_digit c || Ascii.eqb c "_".

(** [s.replace(old, new)] for one-character [old] and [new]. *)
Fixpoint replace (old new : ascii) (s : string) : string :=
  match s with
  | EmptyString => EmptyString
  | String c r =>
      String (if Ascii.eqb c old then new else c) (replace old new r)
  end.

(** [re.sub(r'[^a-zA-Z0-9_]', '', s)]: every character outside the class
    is deleted. *)
Fixpoint re_sub_nonword (s : string) : string :=
  match s with
  | EmptyString => EmptyString
  | String c r =>
      if is_word c then String c (re_sub_nonword r) else re_sub_nonword r
  end.

(** [re.match(r'^\d', s)], as a truth value.  On the output of
    [re_sub_nonword] the Unicode class [\d] and [[0-9]] coincide. *)
Definition re_match_digit (s : string) : bool :=
  match s with
  | EmptyString => false
  | String c _ => is_digit c
  end.

(** Every character of [s] satisfies [p]. *)
Fixpoint all_chars (p : ascii -> bool) (s : string) : bool :=
  match s with
  | EmptyString => true
  | String c r => p c && all_chars p r
  end.

(** [c in s]. *)
Fixpoint contains (c : ascii) (s : string) : bool :=
  match s with
  | EmptyString => false
  | String d r => Ascii.eqb d c || contains c r
  end.

(** [s.split(sep)] for a one-character separator: the segments between
    the occurrences of [sep]; never the empty list. *)
Fixpoint split (sep : ascii) (s : string) : list string :=
  match s with
  | EmptyString => [EmptyString]
  | String c r =>
      if Ascii.eqb c sep then EmptyString :: split sep r
      else match split sep r with
           | [] => [String c EmptyString]
           | seg :: segs => String c seg :: segs
           end
  end.

(** [l[-1]] on a list of strings that [split] returned (never empty). *)
Definition last_seg (l : list string) : string := default EmptyString (last l).

(** [s.rstrip(c)]: all trailing occurrences of [c] are removed. *)
Fixpoint rstrip (c : ascii) (s : string) : string :=
  match s with
  | EmptyString => EmptyString
  | String d r =>
      match rstrip c r with
      | EmptyString => if Ascii.eqb d c then EmptyString else String d EmptyString
      | r' => String d r'
      end
  end.

(** [s] ends with the character [c]. *)
Fixpoint ends_with (c : ascii) (s : string) : bool :=
  match s with
  | EmptyString => false
  | String d EmptyString => Ascii.eqb d c
  | String _ r => ends_with c r
  end.

End Str.

(** ** Label Sanitizer *)

(** [sanitize_label(label)], lines 19-23. *)
Definition sanitize_label (label : string) : string :=
  let sanitized :=
    Str.re_sub_nonword (Str.replace "-" "_" (Str.replace " " "_" label)) in
  let sanitized :=
    if Str.re_match_digit sanitized then "L_" +:+ sanitized else sanitized in
  if Str.truthy sanitized then sanitized else "Unknown".

(** The rule in the words of the specification, one character at a
    time: a space or a hyphen becomes an underscore, a character of
    [[A-Za-z0-9_]] is kept, any other character is dropped. *)
Fixpoint spec_strip (s : string) : string :=
  match s with
  | EmptyString => EmptyString
  | String c r =>
      if Ascii.eqb c " " || Ascii.eqb c "-" then String "_" (spec_strip r)
      else if Str.is_word c then String c (spec_strip r)
      else spec_strip r
  end.

Definition spec_sanitize (s : string) : string :=
  let t := spec_strip s in
  match t with
  | EmptyString => "Unknown"
  | String c _ => if Str.is_digit c then "L_" +:+ t else t
  end.

(** [extract_fragment(uri)], lines 26-29. *)
Definition extract_fragment (uri : string) : string :=
  if Str.contains "#" uri then Str.last_seg (Str.split "#" uri)
  else Str.last_seg (Str.split "/" (Str.rstrip "/" uri)).

(** ** RDF terms and graphs *)

(** The three kinds of rdflib terms.  Two terms are equal when they are
    of the same kind and carry the same string; [str(t)] is that
    string. *)
Inductive term :=
  | URIRef (s : string)
  | BNode (s : string)
  | Literal (s : string).

#[global] Instance term_eq_dec : EqDecision term.
Proof. solve_decision. Defined.

Definition str (t : term) : string :=
  match t with
  | URIRef s | BNode s | Literal s => s
  end.

(** [isinstance(o, URIRef)]. *)
Definition is_URIRef (t : term) : bool :=
  match t with
  | URIRef _ => true
  | _ => false
  end.

(** A triple [(s, p, o)]; a parsed graph in the order in which
    [for s, p, o in g] enumerates it. *)
Definition triple : Type := term * term * term.
Definition graph : Type := list triple.

Module RDFS.
Definition label : term :=
  URIRef "http://www.w3.org/2000/01/rdf-schema#label".
Definition subClassOf : term :=
  URIRef "http://www.w3.org/2000/01/rdf-schema#subClassOf".
End RDFS.

(** What the Python runtime leaves open: [str.lower] (Unicode case
    mapping) and the order in which a [set] is iterated. *)
Class PyRuntime := {
  lower : string -> string;
  set_order : list term -> list term;
  set_order_perm : forall l, set_order l ≡ₚ l
}.

(** ** Dictionaries and sets *)

Section Dict.
Context {K V : Type} `{EqDecision K}.

(** [d[k] = v]: an existing key keeps its position. *)
Fixpoint dict_set (k : K) (v : V) (d : list (K * V)) : list (K * V) :=
  match d with
  | [] => [(k, v)]
  | (k', v') :: r =>
      if decide (k' = k) then (k', v) :: r else (k', v') :: dict_set k v r
  end.

(** [d.get(k)]. *)
Fixpoint dict_get (k : K) (d : list (K * V)) : option V :=
  match d with
  | [] => None
  | (k', v') :: r => if decide (k' = k) then Some v' else dict_get k r
  end.

(** [s.add(x)] on a set kept as a duplicate-free list. *)
Definition set_add (x : K) (s : list K) : list K :=
  if decide (x ∈ s) then s else s ++ [x].
End Dict.

(** ** RDF Hierarchy Extractor *)

(** The four collections of [parse_ttl_to_json], lines 36-39. *)
Record index := Index {
  children : list (term * list term);
  labels : list (term * string);
  parents : list term;
  all_classes : list term
}.

Definition empty_index : index := Index [] [] [] [].

(** [children[o].append(s)] on a [defaultdict(list)]. *)
Definition children_append (o s : term) (ch : list (term * list term)) :
    list (term * list term) :=
  dict_set o (default [] (dict_get o ch) ++ [s]) ch.

(** The body of the scan loop, lines 41-48. *)
Definition scan_step (st : index) (t : triple) : index :=
  let '(s, p, o) := t in
  if decide (p = RDFS.label) then
    Index (children st) (dict_set s (str o) (labels st)) (parents st)
      (all_classes st)
  else if decide (p = RDFS.subClassOf) then
    if is_URIRef o then
      Index (children_append o s (children st)) (labels st)
        (set_add s (parents st)) (set_add o (set_add s (all_classes st)))
    else st
  else st.

Definition scan (g : graph) : index := foldl scan_step empty_index g.

(** The loop of lines 50-52 on the label dictionary. *)
Definition fill_step (lbls : list (term * string)) (cls : term) :
    list (term * string) :=
  match dict_get cls lbls with
  | Some _ => lbls
  | None => dict_set cls (extract_fragment (str cls)) lbls
  end.

(** ** Ontology trees *)

#[local] Unset Elimination Schemes.
(** The dictionary [{"id": .., "label": .., "children": [..]}] that
    [build_json_tree] returns; all three keys are always present, so the
    defaults of [node.get] in the uploader are never used on it.  Its
    induction principle, with the hypothesis on every child, is
    [node_ind] below. *)
Inductive node := Node {
  node_id : string;
  node_label : string;
  node_children : list node
}.
#[local] Set Elimination Schemes.

Inductive exn :=
  | ValueError (msg : string)
  | RecursionError.

Inductive result (A : Type) :=
  | Ok (a : A)
  | Raise (e : exn).
Arguments Ok {A} a.
Arguments Raise {A} e.

(** The message of line 63. *)
Definition root_not_found (root_label : string) : exn :=
  ValueError ("Root label '" +:+ root_label +:+ "' not found in TTL file.").

(** [build_json_tree], lines 68-73, with the two dictionaries of its
    closure as arguments.  [fuel] bounds the depth of the recursion as the
    interpreter's recursion limit does; [None] is the [RecursionError] of
    a hierarchy that is deeper, or cyclic. *)
Fixpoint build_json_tree (fuel : nat) (ch : list (term * list term))
    (lbls : list (term * string)) (nd : term) : option node :=
  match fuel with
  | O => None
  | S fuel' =>
      match
        mapM (build_json_tree fuel' ch lbls) (default [] (dict_get nd ch))
      with
      | Some kids =>
          Some (Node (str nd)
                  (default (extract_fragment (str nd)) (dict_get nd lbls))
                  kids)
      | None => None
      end
  end.

Section Extraction.
Context `{PyRuntime}.

(** The label dictionary after the loop of lines 50-52. *)
Definition resolved_labels (g : graph) : list (term * string) :=
  foldl fill_step (labels (scan g)) (set_order (all_classes (scan g))).

(** [get_uri_by_label], lines 55-59. *)
Fixpoint get_uri_by_label (lbls : list (term * string))
    (search_label : string) : option term :=
  match lbls with
  | [] => None
  | (uri, label) :: r =>
      if decide (lower label = lower search_label) then Some uri
      else get_uri_by_label r search_label
  end.

(** The list comprehension of line 66. *)
Definition implicit_roots (g : graph) : list term :=
  filter (fun cls => cls ∉ parents (scan g))
    (set_order (all_classes (scan g))).

(** Lines 54-66.  [if root_label:] holds for a non-empty string;
    [if not root_uri:] holds for [None] and for a term whose string is
    empty. *)
Definition resolve_roots (g : graph) (root_label : option string) :
    result (list term) :=
  match root_label with
  | Some rl =>
      if Str.truthy rl then
        match get_uri_by_label (resolved_labels g) rl with
        | Some root_uri =>
            if Str.truthy (str root_uri) then Ok [root_uri]
            else Raise (root_not_found rl)
        | None => Raise (root_not_found rl)
        end
      else Ok (implicit_roots g)
  | None => Ok (implicit_roots g)
  end.

(** [parse_ttl_to_json] on the parsed graph. *)
Definition parse_ttl_to_json (fuel : nat) (g : graph)
    (root_label : option string) : result (list node) :=
  match resolve_roots g root_label with
  | Raise e => Raise e
  | Ok roots =>
      match
        mapM (build_json_tree fuel (children (scan g)) (resolved_labels g))
          roots
      with
      | Some trees => Ok trees
      | None => Raise RecursionError
      end
  end.
End Extraction.

(** [count_nodes], lines 78-82. *)
Fixpoint count_nodes (nd : node) : nat :=
  match nd with
  | Node _ _ kids =>
      fold_left (fun count child => count + count_nodes child) kids 1
  end.

(** ** Graph Uploader *)

(** The two Cypher statements a write transaction is sent. *)
Inductive op :=
  | Upsert (node_id label assigned_label : string)
  | MergeEdge (parent_id child_id : string).

#[global] Instance op_eq_dec : EqDecision op.
Proof. solve_decision. Defined.

(** An optional string inside an f-string: [None] prints as "None". *)
Definition fmt (o : option string) : string := default "None" o.

(** [recurse] inside [traverse_and_upload], lines 101-117, as the list
    of statements it sends, in order. *)
Fixpoint recurse (nd : node) (parent_id parent_label : option string)
    (level : nat) : list op :=
  match nd with
  | Node node_id raw_label kids =>
      let current_label := sanitize_label raw_label in
      let assigned_label :=
        if (level <=? 1) then Some current_label else parent_label in
      if Str.truthy node_id then
        Upsert node_id raw_label (fmt assigned_label)
        :: match parent_id with
           | Some p => if Str.truthy p then [MergeEdge p node_id] else []
           | None => []
           end
        ++ flat_map
             (fun child => recurse child (Some node_id) assigned_label (S level))
             kids
      else []
  end.

(** [traverse_and_upload], line 119. *)
Definition traverse_and_upload (root_node : node) : list op :=
  recurse root_node None None 0.

(** ** The graph database *)

(** A Neo4j node: its labels and the two properties the uploader reads
    or writes.  A node is identified by its position in the store; no
    statement of the uploader deletes a node. *)
Record gnode := GNode {
  n_labels : list string;
  n_id : option string;
  n_name : option string
}.

#[global] Instance gnode_eq_dec : EqDecision gnode.
Proof. solve_decision. Defined.

(** The store: the nodes, and the [SUBCLASS_OF] relationships as pairs
    (child position, parent position). *)
Record db := Db {
  nodes : list gnode;
  edges : list (nat * nat)
}.

Definition empty_db : db := Db [] [].

(** The pattern [(n:assigned_label {id: $id})]. *)
Definition matches (assigned_label node_id : string) (n : gnode) : bool :=
  bool_decide (assigned_label ∈ n_labels n) &&
  bool_decide (n_id n = Some node_id).

Definition set_name (label : string) (n : gnode) : gnode :=
  GNode (n_labels n) (n_id n) (Some label).

(** [upload_node], lines 85-89: [MERGE (n:L {id: $id}) SET n.name = $label]
    creates the node when the pattern has no match, and sets the name of
    every node that [n] is bound to. *)
Definition upload_node (d : db) (node_id label assigned_label : string) : db :=
  if existsb (matches assigned_label node_id) (nodes d) then
    Db ((fun n => if matches assigned_label node_id n
                  then set_name label n else n) <$> nodes d)
       (edges d)
  else
    Db (nodes d ++ [GNode [assigned_label] (Some node_id) (Some label)])
       (edges d).

(** The positions, from [k] on, of the nodes matching [({id: $id})]. *)
Fixpoint find_ids (node_id : string) (k : nat) (ns : list gnode) : list nat :=
  match ns with
  | [] => []
  | n :: r =>
      if decide (n_id n = Some node_id) then k :: find_ids node_id (S k) r
      else find_ids node_id (S k) r
  end.

(** [MERGE (c)-[:SUBCLASS_OF]->(p)] for one row [(p, c)]. *)
Definition merge_rel (es : list (nat * nat)) (row : nat * nat) :
    list (nat * nat) :=
  let '(p, c) := row in
  if decide ((c, p) ∈ es) then es else es ++ [(c, p)].

(** [create_relationship], lines 92-97: the two [MATCH] clauses produce
    one row per pair of matching nodes, and [MERGE] runs on each row. *)
Definition create_relationship (d : db) (parent_id child_id : string) : db :=
  let rows :=
    p ← find_ids parent_id 0 (nodes d);
    c ← find_ids child_id 0 (nodes d);
    [(p, c)] in
  Db (nodes d) (foldl merge_rel (edges d) rows).

(** [reset_database], lines 122-124. *)
Definition reset_database (d : db) : db := empty_db.

Definition run_op (d : db) (o : op) : db :=
  match o with
  | Upsert node_id label assigned_label =>
      upload_node d node_id label assigned_label
  | MergeEdge parent_id child_id => create_relationship d parent_id child_id
  end.

Definition run_ops (d : db) (ops : list op) : db := foldl run_op d ops.

(** ** Conversion Orchestrator *)

(** What [run_conversion] asks of the database. *)
Inductive event :=
  | Reset
  | WriteTx (ops : list op).

Definition run_event (d : db) (e : event) : db :=
  match e with
  | Reset => reset_database d
  | WriteTx ops => run_ops d ops
  end.

Inductive outcome :=
  | Raised (e : exn)
  | Preview (json_data : list node)
  | Success (nodes_uploaded : nat).

(** [run_conversion], lines 128-149, from the parsed graph on: the value
    returned (or the exception raised) and the database requests made,
    in order. *)
Definition run_conversion `{PyRuntime} (fuel : nat) (g : graph)
    (root_label : option string) (preview_only : bool) :
    outcome * list event :=
  match parse_ttl_to_json fuel g root_label with
  | Raise e => (Raised e, [])
  | Ok json_data =>
      if preview_only then (Preview json_data, [])
      else
        let total_nodes :=
          foldl (fun acc tree => acc + count_nodes tree) 0 json_data in
        (Success total_nodes,
         Reset :: ((fun tree => WriteTx (traverse_and_upload tree)) <$> json_data))
  end.

(** ** Vocabulary of the properties *)

(** A runtime for closed examples: ASCII case mapping, and sets iterated
    in insertion order. *)
Definition ascii_lower (c : ascii) : ascii :=
  if Str.is_upper c then ascii_of_nat (nat_of_ascii c + 32) else c.

Fixpoint str_lower (s : string) : string :=
  match s with
  | EmptyString => EmptyString
  | String c r => String (ascii_lower c) (str_lower r)
  end.

Definition ascii_runtime : PyRuntime :=
  {| lower := str_lower;
     set_order := fun l => l;
     set_order_perm := fun l => reflexivity l |}.

(** [s] is recorded as a subclass of the named class [o]: the triples the
    scan loop acts on at lines 44-48. *)
Definition subclass_edge (g : graph) (s o : term) : Prop :=
  (s, RDFS.subClassOf, o) ∈ g ∧ is_URIRef o = true.

(** A known class: subject or object of a recorded subclass triple. *)
Definition known_class (g : graph) (c : term) : Prop :=
  ∃ s o, subclass_edge g s o ∧ (c = s ∨ c = o).

(** Marked "has a parent". *)
Definition has_parent (g : graph) (c : term) : Prop :=
  ∃ o, subclass_edge g c o.

(** Subject of any [subClassOf] triple, whatever its object. *)
Definition subclass_subject (g : graph) (c : term) : Prop :=
  ∃ o, (c, RDFS.subClassOf, o) ∈ g.

(** Subject or object of any [subClassOf] triple. *)
Definition participates (g : graph) (c : term) : Prop :=
  ∃ s o, (s, RDFS.subClassOf, o) ∈ g ∧ (c = s ∨ c = o).

(** The explicit label of [c]: the object of the label triple of [c]
    that the scan meets last. *)
Definition explicit_label (g : graph) (c : term) : option string :=
  last (omap (fun t : triple =>
                let '(s, p, o) := t in
                if decide (p = RDFS.label) then
                  if decide (s = c) then Some (str o) else None
                else None) g).

(** The identifiers rdflib produces are never empty. *)
Definition nonempty_ids (g : graph) : Prop :=
  ∀ s p o, (s, p, o) ∈ g →
    str s ≠ "" ∧ (is_URIRef o = true → str o ≠ "").

(** The resolved label matches the requested one whatever the case. *)
Definition label_matches `{PyRuntime} (g : graph) (rl : string) : Prop :=
  ∃ uri label, (uri, label) ∈ resolved_labels g ∧ lower label = lower rl.

(** A position in a tree: the child indices on the way from the root;
    its length is the depth. *)
Definition path : Type := list nat.

Fixpoint subtree_at (t : node) (p : path) : option node :=
  match p with
  | [] => Some t
  | i :: p' =>
      match node_children t !! i with
      | Some c => subtree_at c p'
      | None => None
      end
  end.

(** The positions below the children [l], the first of which has index
    [k], given the positions [visit c] inside each child [c]. *)
Definition child_paths (visit : node → list path) :
    nat → list node → list path :=
  fix go (k : nat) (l : list node) : list path :=
    match l with
    | [] => []
    | c :: l' => (cons k <$> visit c) ++ go (S k) l'
    end.

(** The positions the traversal reaches, in depth-first pre-order: a
    node without an id is skipped with everything below it. *)
Fixpoint visit_paths (t : node) : list path :=
  match t with
  | Node i _ kids =>
      if Str.truthy i then [] :: child_paths visit_paths 0 kids else []
  end.

(** The ids of the nodes the traversal reaches, in depth-first
    pre-order. *)
Fixpoint preorder (t : node) : list string :=
  match t with
  | Node i _ kids =>
      if Str.truthy i then i :: flat_map preorder kids else []
  end.

(** The upserts of a transaction: id and type tag, in order. *)
Definition upsert_tags (ops : list op) : list (string * string) :=
  omap (fun o => match o with
                 | Upsert i _ tg => Some (i, tg)
                 | MergeEdge _ _ => None
                 end) ops.

Definition upsert_ids (ops : list op) : list string :=
  fst <$> upsert_tags ops.

(** The type tag the uploader gives the node at position [p]: the tag of
    the upsert issued for the first visit of [p]. *)
Definition assigned_tag (root : node) (p : path) : option string :=
  k ← fst <$> list_find (fun q => q = p) (visit_paths root);
  snd <$> upsert_tags (traverse_and_upload root) !! k.

(** The rule of the specification for the node at depth [d] on the way
    to [p]: its own sanitized label at depth 0 and 1, the tag of its
    parent below. *)
Fixpoint type_tag (root : node) (p : path) (d : nat) : option string :=
  match d with
  | 0 => sanitize_label ∘ node_label <$> subtree_at root (take d p)
  | 1 => sanitize_label ∘ node_label <$> subtree_at root (take d p)
  | S d' => type_tag root p d'
  end.

(** Some node of the store carries the id. *)
Definition has_id (i : string) (d : db) : Prop :=
  ∃ n, n ∈ nodes d ∧ n_id n = Some i.

(** Every id of the transaction is upserted under one type tag. *)
Definition single_tag (ops : list op) : Prop :=
  Forall (fun x => Forall (fun y => x.1 = y.1 → x.2 = y.2) (upsert_tags ops))
    (upsert_tags ops).

(** A merge follows the upsert of its child at once, and its parent is
    the caller's node or was upserted before. *)
Definition edge_ok (pid : option string) (ops : list op) : Prop :=
  ∀ pre p c post, ops = pre ++ MergeEdge p c :: post →
    ∃ pre' l tg, pre = pre' ++ [Upsert c l tg]
      ∧ ((pid = Some p ∧ pre' = []) ∨ ∃ l' tg', Upsert p l' tg' ∈ pre').

(** The effect of one upsert on one node: [SET n.name] on a match. *)
Definition touch (tg i l : string) (n : gnode) : gnode :=
  if matches tg i n then set_name l n else n.

(** An upsert [(id, tag)] is what the rule gives at position [p]. *)
Definition tagged (root : node) (p : path) (it : string * string) : Prop :=
  ∃ n, subtree_at root p = Some n ∧ node_id n = it.1
       ∧ type_tag root p (length p) = Some it.2.

(** [frag] is the part of [s] after the last [sep]. *)
Definition after_last (sep : ascii) (s frag : string) : Prop :=
  (∃ pre, s = pre +:+ String sep frag) ∧ Str.contains sep frag = false.

(** The fragment of a URI in the words of the specification: after the
    last [#]; without a [#], after the last [/] of the URI with its
    trailing [/] stripped, which is all of it when no [/] is left. *)
Definition fragment_of (uri frag : string) : Prop :=
  if Str.contains "#" uri then after_last "#" uri frag
  else if Str.contains "/" (Str.rstrip "/" uri)
       then after_last "/" (Str.rstrip "/" uri) frag
       else frag = Str.rstrip "/" uri.

(** The fragment is empty for a URI that ends in [#], and for one
    without [#] that consists of [/] only. *)
Definition empty_fragment (uri : string) : bool :=
  if Str.contains "#" uri then Str.ends_with "#" uri
  else Str.all_chars (fun c => Ascii.eqb c "/") uri.

(** The effect of a statement on the nodes alone. *)
Definition run_op_nodes (ns : list gnode) (o : op) : list gnode :=
  match o with
  | Upsert i l tg =>
      if existsb (matches tg i) ns then touch tg i l <$> ns
      else ns ++ [GNode [tg] (Some i) (Some l)]
  | MergeEdge _ _ => ns
  end.

(** The effect of a statement, and of a transaction, on one node that
    exists already. *)
Definition touch_op (n : gnode) (o : op) : gnode :=
  match o with
  | Upsert i l tg => touch tg i l n
  | MergeEdge _ _ => n
  end.

Definition touch_ops (ops : list op) (n : gnode) : gnode :=
  foldl touch_op n ops.

(** The statement sets the name of the node. *)
Definition writes (n : gnode) (o : op) : bool :=
  match o with
  | Upsert i _ tg => matches tg i n
  | MergeEdge _ _ => false
  end.

(** Every node with id [c] has its edge to every node with id [p]. *)
Definition complete (ns : list gnode) (es : list (nat * nat))
    (p c : string) : Prop :=
  ∀ a b, a ∈ find_ids p 0 ns → b ∈ find_ids c 0 ns → (b, a) ∈ es.

(** Every merge comes after an upsert of each of its endpoints. *)
Definition well_ordered (ops : list op) : Prop :=
  ∀ pre p c post, ops = pre ++ MergeEdge p c :: post →
    (∃ l tg, Upsert p l tg ∈ pre) ∧ (∃ l tg, Upsert c l tg ∈ pre).

(** All ids of a tree are non-empty. *)
Fixpoint ids_nonempty (t : node) : bool :=
  match t with
  | Node i _ kids => Str.truthy i && forallb ids_nonempty kids
  end.

Definition event_upserts (e : event) : list (string * string) :=
  match e with
  | Reset => []
  | WriteTx ops => upsert_tags ops
  end.

(** How many node upserts a run has sent. *)
Definition count_upserts (evs : list event) : nat :=
  length (flat_map event_upserts evs).

(** ** The hierarchy of the specification's example *)

Module Example.
Definition A : term := URIRef "http://example.org/A".
Definition B : term := URIRef "http://example.org/B".
Definition C : term := URIRef "http://example.org/C".
Definition X : term := URIRef "http://example.org/X".
Definition Y : term := URIRef "http://example.org/Y".
Definition R : term := URIRef "http://example.org/R".

(** [(A subClassOf B), (B subClassOf C)]. *)
Definition chain : graph :=
  [ (A, RDFS.subClassOf, B); (B, RDFS.subClassOf, C) ].

(** The chain with [label(A)="Cat"], [label(B)="Mammal"],
    [label(C)="Animal"]. *)
Definition animals : graph :=
  chain ++ [ (A, RDFS.label, Literal "Cat");
             (B, RDFS.label, Literal "Mammal");
             (C, RDFS.label, Literal "Animal") ].

Definition chain_tree : node :=
  Node (str C) "C" [Node (str B) "B" [Node (str A) "A" []]].

Definition animals_tree : node :=
  Node (str C) "Animal" [Node (str B) "Mammal" [Node (str A) "Cat" []]].

(** A class with two parents in different top-level categories. *)
Definition diamond : graph :=
  [ (X, RDFS.subClassOf, R); (Y, RDFS.subClassOf, R);
    (A, RDFS.subClassOf, X); (A, RDFS.subClassOf, Y) ].

Definition diamond_tree : node :=
  Node (str R) "R"
    [ Node (str X) "X" [Node (str A) "A" []];
      Node (str Y) "Y" [Node (str A) "A" []] ].

(** A class whose only superclass is an anonymous restriction. *)
Definition restricted : graph :=
  [ (A, RDFS.subClassOf, B); (B, RDFS.subClassOf, BNode "r1") ].

(** A class named by a namespace URI that ends in [#]. *)
Definition hash_ns : graph :=
  [ (A, RDFS.subClassOf, URIRef "http://example.org/onto#") ].
End Example.

(** ** Vocabulary of the further properties *)

(** A string that can stand as a label in a Cypher pattern: not empty,
    made of [[A-Za-z0-9_]], not starting with a digit. *)
Definition valid_ident (s : string) : bool :=
  Str.truthy s && Str.all_chars Str.is_word s && negb (Str.re_match_digit s).

(** The subjects recorded as subclasses of [o], in the order of the
    scan: one for each [subClassOf] triple whose object is the URI
    [o]. *)
Definition subclasses_of (g : graph) (o : term) : list term :=
  omap (fun t : triple =>
          let '(s, p, o') := t in
          if decide (p = RDFS.subClassOf) then
            if is_URIRef o' then if decide (o' = o) then Some s else None
            else None
          else None) g.

(** The number of nodes on the longest way from the root to a leaf. *)
Fixpoint height (t : node) : nat :=
  match t with
  | Node _ _ kids => S (max_list (height <$> kids))
  end.

(** Two lists related element by element. *)
Definition all2 {A B : Type} (R : A → B → Prop) : list A → list B → Prop :=
  fix go (xs : list A) (ys : list B) : Prop :=
    match xs, ys with
    | [], [] => True
    | x :: xs', y :: ys' => R x y ∧ go xs' ys'
    | _, _ => False
    end.

(** The tree [t] shows the hierarchy below the term [nd]: it carries the
    string and the label of [nd], and its children show, in scan order,
    the hierarchies below the recorded subclasses of [nd]. *)
Fixpoint represents (g : graph) (lbls : list (term * string)) (t : node)
    (nd : term) {struct t} : Prop :=
  match t with
  | Node i l kids =>
      i = str nd
      ∧ l = default (extract_fragment (str nd)) (dict_get nd lbls)
      ∧ all2 (represents g lbls) kids (subclasses_of g nd)
  end.

(** Further hierarchies. *)
Module Cases.
(** A class that is its own superclass, with a label. *)
Definition loop : graph :=
  [ (Example.A, RDFS.subClassOf, Example.A);
    (Example.A, RDFS.label, Literal "Thing") ].

(** Two classes that are each other's superclass. *)
Definition two_cycle : graph :=
  [ (Example.A, RDFS.subClassOf, Example.B);
    (Example.B, RDFS.subClassOf, Example.A) ].

(** Two entities with the same label up to case. *)
Definition homonyms : graph :=
  [ (Example.A, RDFS.subClassOf, Example.B);
    (Example.B, RDFS.label, Literal "Bird");
    (Example.A, RDFS.label, Literal "BIRD") ].
End Cases.

(** The merges of a transaction: parent id and child id, in order. *)
Definition merge_pairs (ops : list op) : list (string * string) :=
  omap (fun o => match o with
                 | Upsert _ _ _ => None
                 | MergeEdge p c => Some (p, c)
                 end) ops.

(** The upserts of a transaction: id and name, in order. *)
Definition upsert_names (ops : list op) : list (string * string) :=
  omap (fun o => match o with
                 | Upsert i l _ => Some (i, l)
                 | MergeEdge _ _ => None
                 end) ops.

(** The links of a tree between nodes the traversal reaches, as pairs
    (id of the parent, id of the child), in depth-first pre-order. *)
Fixpoint tree_edges (t : node) : list (string * string) :=
  match t with
  | Node i _ kids =>
      if Str.truthy i then
        flat_map (fun c =>
                    (if Str.truthy (node_id c) then [(i, node_id c)] else [])
                    ++ tree_edges c) kids
      else []
  end.

(** The ids and raw labels of the nodes the traversal reaches, in
    depth-first pre-order. *)
Fixpoint preorder_names (t : node) : list (string * string) :=
  match t with
  | Node i l kids =>
      if Str.truthy i then (i, l) :: flat_map preorder_names kids else []
  end.

(** Every edge of the store lies between two of its nodes. *)
Definition edges_in_range (d : db) : Prop :=
  ∀ b a, (b, a) ∈ edges d →
    b < length (nodes d) ∧ a < length (nodes d).

(** The node at position [k] carries the id [i]. *)
Definition id_at (d : db) (k : nat) (i : string) : Prop :=
  ∃ n, nodes d !! k = Some n ∧ n_id n = Some i.

(** What the pattern of [upload_node] looks at: the labels and the id. *)
Definition node_key (n : gnode) : list string * option string :=
  (n_labels n, n_id n).

(** The node an upsert creates. *)
Definition new_node (i l tg : string) : gnode :=
  GNode [tg] (Some i) (Some l).

(** The upserts of a transaction with all their arguments. *)
Definition upserts (ops : list op) : list (string * string * string) :=
  omap (fun o => match o with
                 | Upsert i l tg => Some (i, l, tg)
                 | MergeEdge _ _ => None
                 end) ops.

(** The node an upsert, given with all its arguments, creates. *)
Definition mk_node (u : string * string * string) : gnode :=
  new_node u.1.1 u.1.2 u.2.

(** All the ids of a tree, with or without content. *)
Fixpoint tree_ids (t : node) : list string :=
  match t with
  | Node i _ kids => i :: flat_map tree_ids kids
  end.

(** [c] is [r] or below it in the recorded hierarchy. *)
Definition below (g : graph) (r c : term) : Prop :=
  rtc (fun o s => subclass_edge g s o) r c.

(** * Properties *)

(** ** Label Sanitizer *)

Section SanitizerFacts.

(** The three passes of the source do what the one-pass rule says. *)
Lemma re_sub_replace_spec s :
  Str.re_sub_nonword (Str.replace "-" "_" (Str.replace " " "_" s))
  = spec_strip s.
Proof.
  induction s as [|c s IH]; [done|]. cbn [Str.replace Str.re_sub_nonword spec_strip].
  destruct (Ascii.eqb c " ") eqn:Hsp.
  - cbn. by rewrite IH.
  - destruct (Ascii.eqb c "-") eqn:Hhy; cbn.
    + by rewrite IH.
    + rewrite IH. by destruct (Str.is_word c).
Qed.

Lemma spec_strip_word s : Str.all_chars Str.is_word (spec_strip s) = true.
Proof.
  induction s as [|c s IH]; [done|]. cbn [spec_strip].
  destruct (Ascii.eqb c " " || Ascii.eqb c "-"); [by cbn; rewrite IH|].
  destruct (Str.is_word c) eqn:Hw; [|done]. cbn. by rewrite Hw, IH.
Qed.

Lemma sanitize_label_unfold s :
  sanitize_label s = spec_sanitize s.
Proof.
  unfold sanitize_label, spec_sanitize. rewrite re_sub_replace_spec.
  destruct (spec_strip s) as [|c t]; [done|]. cbn.
  by destruct (Str.is_digit c).
Qed.

End SanitizerFacts.

(** C3. For every string, [sanitize_label] returns the string that the
    rule of the specification describes: spaces and hyphens become
    underscores, other characters outside [[A-Za-z0-9_]] are dropped,
    [L_] is put in front of a leading digit, and ["Unknown"] stands for
    an empty result.  The result consists of characters of
    [[A-Za-z0-9_]] and never starts with a digit; ["!!!"] gives
    ["Unknown"]. *)
Theorem sanitize_label_correct (s : string) :
  sanitize_label s = spec_sanitize s
  ∧ Str.all_chars Str.is_word (sanitize_label s) = true
  ∧ Str.re_match_digit (sanitize_label s) = false
  ∧ (spec_strip s = "" → sanitize_label s = "Unknown")
  ∧ (spec_strip s ≠ "" →
       sanitize_label s =
         if Str.re_match_digit (spec_strip s) then "L_" +:+ spec_strip s
         else spec_strip s)
  ∧ sanitize_label "!!!" = "Unknown".
Proof.
  rewrite sanitize_label_unfold. unfold spec_sanitize.
  pose proof (spec_strip_word s) as Hw.
  destruct (spec_strip s) as [|c t] eqn:Ht.
  - repeat split; done.
  - cbn in Hw. apply andb_prop in Hw as [Hc Hrest].
    destruct (Str.is_digit c) eqn:Hd; simpl; rewrite ?Hc, ?Hrest, ?Hd;
      repeat split; done.
Qed.

Lemma sanitize_label_correct_witness :
  sanitize_label "9 lives-of cats!" = "L_9_lives_of_cats"
  ∧ sanitize_label "?!" = "Unknown".
Proof.
  pose proof (sanitize_label_correct "9 lives-of cats!") as (_ & _ & _ & _ & H1 & _).
  pose proof (sanitize_label_correct "?!") as (_ & _ & _ & H2 & _).
  split; [apply H1; discriminate | apply H2; reflexivity].
Defined.

(** ** Trees and the statements of a traversal *)

Section TreeFacts.

(** Induction on a tree with the hypothesis on every child. *)
Lemma node_ind (P : node → Prop) :
  (∀ i l kids, Forall P kids → P (Node i l kids)) → ∀ t, P t.
Proof.
  intros Hstep. fix IH 1. intros [i l kids]. apply Hstep.
  induction kids as [|c kids IHk]; constructor; [apply IH | apply IHk].
Qed.

Lemma recurse_eq i l kids pid pl lvl :
  recurse (Node i l kids) pid pl lvl =
    let assigned_label :=
      if lvl <=? 1 then Some (sanitize_label l) else pl in
    if Str.truthy i then
      Upsert i l (fmt assigned_label)
      :: match pid with
         | Some p => if Str.truthy p then [MergeEdge p i] else []
         | None => []
         end
      ++ flat_map (fun c => recurse c (Some i) assigned_label (S lvl)) kids
    else [].
Proof. reflexivity. Qed.

Lemma upsert_tags_app a b :
  upsert_tags (a ++ b) = upsert_tags a ++ upsert_tags b.
Proof. apply omap_app. Qed.

Lemma upsert_tags_flat_map {A} (f : A → list op) l :
  upsert_tags (flat_map f l) = flat_map (fun x => upsert_tags (f x)) l.
Proof.
  induction l as [|x l IH]; [done|]. cbn. by rewrite upsert_tags_app, IH.
Qed.

Lemma upsert_tags_edge (pid : option string) i :
  upsert_tags (match pid with
               | Some p => if Str.truthy p then [MergeEdge p i] else []
               | None => []
               end) = [].
Proof. destruct pid as [p|]; [destruct (Str.truthy p)|]; done. Qed.

Lemma flat_map_Forall_ext {A B} (f g : A → list B) l :
  Forall (fun x => f x = g x) l → flat_map f l = flat_map g l.
Proof. induction 1 as [|x l Hx _ IH]; [done|]. cbn. by rewrite Hx, IH. Qed.

Lemma fmap_flat_map {A B C} (h : B → C) (f : A → list B) l :
  h <$> flat_map f l = flat_map (fun x => h <$> f x) l.
Proof. induction l as [|x l IH]; [done|]. cbn. by rewrite fmap_app, IH. Qed.

(** The upserts come in depth-first pre-order. *)
Lemma upsert_ids_recurse t pid pl lvl :
  upsert_ids (recurse t pid pl lvl) = preorder t.
Proof.
  revert pid pl lvl. induction t as [i l kids IH] using node_ind.
  intros pid pl lvl. rewrite recurse_eq. cbn zeta. cbn [preorder].
  destruct (Str.truthy i); [|done].
  unfold upsert_ids. cbn [upsert_tags omap list_omap].
  change (omap _ ?l) with (upsert_tags l).
  rewrite upsert_tags_app, upsert_tags_edge, upsert_tags_flat_map.
  cbn. f_equal. rewrite fmap_flat_map. apply flat_map_Forall_ext.
  eapply Forall_impl; [exact IH|]. intros c Hc. apply Hc.
Qed.

(** Where a statement of a concatenation comes from. *)
Lemma flat_map_split {A B} (f : A → list B) l pre x post :
  flat_map f l = pre ++ x :: post →
  ∃ l1 y l2 pre_y post_y,
    l = l1 ++ y :: l2 ∧ f y = pre_y ++ x :: post_y
    ∧ pre = flat_map f l1 ++ pre_y ∧ post = post_y ++ flat_map f l2.
Proof.
  revert pre. induction l as [|a l IH]; intros pre Heq.
  { by destruct pre. }
  cbn in Heq. apply app_eq_inv in Heq as [(k & Hfa & Hk)|(k & Hpre & Hk)].
  - destruct k as [|x' k].
    + cbn in Hk. symmetry in Hk.
      destruct (IH [] Hk) as (l1 & y & l2 & py & qy & -> & Hy & Hp & ->).
      exists (a :: l1), y, l2, py, qy. cbn.
      rewrite <- (assoc (++)), <- Hp, Hfa, !app_nil_r. done.
    + injection Hk as -> ->.
      exists [], a, l, pre, k. done.
  - destruct (IH k Hk) as (l1 & y & l2 & py & qy & -> & Hy & -> & ->).
    exists (a :: l1), y, l2, py, qy. cbn. rewrite Hpre, <- (assoc (++)). done.
Qed.

Lemma recurse_edge_ok t pid pl lvl : edge_ok pid (recurse t pid pl lvl).
Proof.
  revert pid pl lvl. induction t as [i l kids IH] using node_ind.
  intros pid pl lvl pre p c post. rewrite recurse_eq. cbn zeta.
  destruct (Str.truthy i); [|by destruct pre].
  set (tg := fmt _). set (f := fun c => recurse c _ _ _).
  destruct pre as [|o pre]; [done|]. cbn. intros [= <- Heq].
  assert (Hkids : ∀ pre0 front,
            flat_map f kids = pre0 ++ MergeEdge p c :: post →
            ∃ pre' l0 tg0,
              Upsert i l tg :: front ++ pre0 = pre' ++ [Upsert c l0 tg0]
              ∧ ((pid = Some p ∧ pre' = [])
                 ∨ ∃ l' tg', Upsert p l' tg' ∈ pre')).
  { intros pre0 front Hf.
    apply flat_map_split in Hf
      as (l1 & y & l2 & py & qy & -> & Hy & -> & ->).
    apply Forall_app in IH as [_ IH]. apply Forall_cons in IH as [IHy _].
    destruct (IHy _ _ _ _ _ _ _ Hy) as (pre' & l0 & tg0 & -> & Hpar).
    exists (Upsert i l tg :: front ++ flat_map f l1 ++ pre'), l0, tg0.
    split; [by rewrite !app_comm_cons, <- !(assoc (++))|].
    right. destruct Hpar as [[[= <-] ->]|(l' & tg' & Hin)].
    - exists l, tg. set_solver.
    - exists l', tg'. set_solver. }
  destruct pid as [q|]; [destruct (Str.truthy q)|]; cbn in Heq.
  - destruct pre as [|o pre]; cbn in Heq.
    + injection Heq as <- <- _. exists [], l, tg. by split; [|left].
    + injection Heq as <- Heq. apply (Hkids pre [MergeEdge q i] Heq).
  - apply (Hkids pre [] Heq).
  - apply (Hkids pre [] Heq).
Qed.

End TreeFacts.

(** ** Type tags along a path *)

Section TagFacts.

Lemma elem_of_child_paths visit k l q :
  q ∈ child_paths visit k l ↔
    ∃ j c q', q = (k + j) :: q' ∧ l !! j = Some c ∧ q' ∈ visit c.
Proof.
  revert k. induction l as [|c l IH]; intros k.
  - split; [by intros ?%elem_of_nil|]. intros (j & c & q' & _ & Hl & _). done.
  - cbn [child_paths]. rewrite elem_of_app, IH, list_elem_of_fmap. split.
    + intros [(q' & -> & Hq')|(j & c' & q' & -> & Hl & Hq')].
      * exists 0, c, q'. by rewrite Nat.add_0_r.
      * exists (S j), c', q'. split; [f_equal; lia|done].
    + intros (j & c' & q' & -> & Hl & Hq'). destruct j as [|j]; cbn in Hl.
      * left. injection Hl as ->. exists q'. by rewrite Nat.add_0_r.
      * right. exists j, c', q'. split; [f_equal; lia|done].
Qed.

Lemma elem_of_visit_paths i l kids q :
  q ∈ visit_paths (Node i l kids) ↔
    Str.truthy i = true
    ∧ (q = [] ∨ ∃ k c q',
         q = k :: q' ∧ kids !! k = Some c ∧ q' ∈ visit_paths c).
Proof.
  cbn [visit_paths]. destruct (Str.truthy i).
  - rewrite elem_of_cons, elem_of_child_paths. cbn.
    split; [by intros ?|by intros [_ ?]].
  - split; [by intros ?%elem_of_nil|]. intros [? _]. done.
Qed.

(** The positions reached are closed under taking the parent. *)
Lemma visit_paths_parent t p k :
  p ++ [k] ∈ visit_paths t → p ∈ visit_paths t.
Proof.
  revert t. induction p as [|j p IH]; intros [i l kids];
    rewrite !elem_of_visit_paths; intros [Hi Hq]; (split; [done|]).
  - by left.
  - right. destruct Hq as [?|(k' & c & q' & [= <- <-] & Hc & Hq')]; [done|].
    exists j, c, p. eauto.
Qed.

Lemma subtree_at_app root p q :
  subtree_at root (p ++ q) = subtree_at root p ≫= fun t => subtree_at t q.
Proof.
  revert root. induction p as [|i p IH]; intros root; [done|].
  cbn. destruct (node_children root !! i); [apply IH|done].
Qed.

Lemma type_tag_deeper root p d :
  type_tag root p (S (S d)) = type_tag root p (S d).
Proof. reflexivity. Qed.

(** The tag at depth [d] depends on the first [d] steps only. *)
Lemma type_tag_app root p q d :
  d ≤ length p → type_tag root (p ++ q) d = type_tag root p d.
Proof.
  induction d as [|[|d] IH]; intros Hd.
  - done.
  - cbn [type_tag]. by rewrite take_app_le.
  - rewrite !type_tag_deeper. apply IH. lia.
Qed.

Lemma type_tag_shallow root p n :
  length p ≤ 1 → subtree_at root p = Some n →
  type_tag root p (length p) = Some (sanitize_label (node_label n)).
Proof.
  intros Hlen Hn.
  assert (Ht : take (length p) p = p) by (by apply take_ge).
  destruct (length p) as [|[|?]]; [| |lia]; cbn [type_tag];
    by rewrite Ht, Hn.
Qed.

Lemma recurse_tagged t : ∀ root prefix pid pl,
  subtree_at root prefix = Some t →
  (1 ≤ length prefix →
     is_Some pl ∧ type_tag root prefix (length prefix - 1) = pl) →
  Forall2 (fun q it => tagged root (prefix ++ q) it)
    (visit_paths t) (upsert_tags (recurse t pid pl (length prefix))).
Proof.
  induction t as [i l kids IH] using node_ind.
  intros root prefix pid pl Hsub Hpl.
  rewrite recurse_eq. cbn zeta. cbn [visit_paths].
  destruct (Str.truthy i); [|constructor].
  set (assigned := if length prefix <=? 1 then _ else _).
  assert (Hassigned : is_Some assigned
            ∧ type_tag root prefix (length prefix) = assigned).
  { subst assigned. destruct (Nat.leb_spec (length prefix) 1) as [Hle|Hgt].
    - split; [by eexists|]. by rewrite (type_tag_shallow _ _ _ Hle Hsub).
    - destruct Hpl as [Hsome Htag]; [lia|]. split; [done|].
      destruct (length prefix) as [|[|d]]; [lia..|].
      rewrite type_tag_deeper. by rewrite <- Htag. }
  destruct Hassigned as [[tg Htg] Htag]. rewrite Htg in Htag |- *.
  cbn [upsert_tags omap list_omap]. change (omap _ ?x) with (upsert_tags x).
  rewrite upsert_tags_app, upsert_tags_edge, upsert_tags_flat_map. cbn [app].
  constructor.
  { exists (Node i l kids). by rewrite app_nil_r. }
  assert (Hgen : ∀ rest k0,
            Forall
              (λ t : node, ∀ root prefix pid pl,
                 subtree_at root prefix = Some t →
                 (1 ≤ length prefix →
                    is_Some pl
                    ∧ type_tag root prefix (length prefix - 1) = pl) →
                 Forall2 (fun q it => tagged root (prefix ++ q) it)
                   (visit_paths t)
                   (upsert_tags (recurse t pid pl (length prefix)))) rest →
            (∀ j c, rest !! j = Some c → kids !! (k0 + j) = Some c) →
            Forall2 (fun q it => tagged root (prefix ++ q) it)
              (child_paths visit_paths k0 rest)
              (flat_map
                 (fun x => upsert_tags
                    (recurse x (Some i) (Some tg) (S (length prefix))))
                 rest)).
  { clear IH. induction rest as [|c rest IHrest]; intros k0 IH Hkids;
      [constructor|].
    apply Forall_cons in IH as [IHc IHr]. cbn [child_paths flat_map].
    apply Forall2_app.
    - apply Forall2_fmap_l.
      assert (Hlen : S (length prefix) = length (prefix ++ [k0]))
        by (rewrite length_app; cbn; lia).
      rewrite Hlen.
      eapply Forall2_impl; [apply (IHc root (prefix ++ [k0]))|].
      + rewrite subtree_at_app, Hsub. cbn.
        by rewrite <- (Nat.add_0_r k0), (Hkids 0 c).
      + intros _. split; [by eexists|].
        rewrite <- Hlen. cbn. rewrite Nat.sub_0_r.
        by rewrite type_tag_app.
      + intros q it. cbn. by rewrite <- (assoc (++)).
    - apply IHrest; [done|]. intros j c' Hj.
      replace (S k0 + j) with (k0 + S j) by lia. by apply Hkids. }
  by apply (Hgen kids 0 IH).
Qed.

(** The tag the uploader assigns is the one the rule gives. *)
Lemma assigned_tag_type_tag root p :
  p ∈ visit_paths root →
  ∃ tg, assigned_tag root p = Some tg
        ∧ type_tag root p (length p) = Some tg.
Proof.
  intros Hp.
  destruct (list_find_elem_of (fun q => q = p) _ p Hp eq_refl)
    as [[k p'] Hfind].
  pose proof Hfind as (Hk & -> & _)%list_find_Some.
  pose proof (recurse_tagged root root [] None None eq_refl) as Hall.
  destruct (Forall2_lookup_l _ _ _ _ _ (Hall ltac:(cbn; lia)) Hk)
    as ([i tg] & Hit & n & _ & _ & Htag).
  exists tg. split; [|done].
  unfold assigned_tag, traverse_and_upload. rewrite Hfind.
  cbn [length] in Hit. cbn. by rewrite Hit.
Qed.

End TagFacts.

(** C1. At a position of depth 0 or 1 the uploader assigns the node's
    own sanitized label as type tag; at a position of depth 2 or more it
    assigns the type tag it assigned to the parent position. *)
Theorem type_tag_by_depth (root : node) (p : path) (n : node) :
  p ∈ visit_paths root → subtree_at root p = Some n →
  (length p ≤ 1 →
     assigned_tag root p = Some (sanitize_label (node_label n)))
  ∧ (∀ parent k, p = parent ++ [k] → 1 ≤ length parent →
       is_Some (assigned_tag root p)
       ∧ assigned_tag root p = assigned_tag root parent).
Proof.
  intros Hp Hn.
  destruct (assigned_tag_type_tag root p Hp) as (tg & Htg & Htag).
  split.
  - intros Hlen. rewrite Htg, <- Htag. by apply type_tag_shallow.
  - intros parent k -> Hlen. split; [by eexists|].
    destruct (assigned_tag_type_tag root parent) as (tg' & Htg' & Htag').
    { by eapply visit_paths_parent. }
    rewrite Htg, Htg', <- Htag, <- Htag'.
    rewrite length_app. cbn.
    replace (length parent + 1) with (S (length parent)) by lia.
    destruct (length parent) as [|d] eqn:Hd; [lia|].
    rewrite type_tag_deeper, <- Hd. by apply type_tag_app.
Qed.

Lemma type_tag_by_depth_witness :
  assigned_tag Example.diamond_tree [1] = Some "Y"
  ∧ assigned_tag Example.diamond_tree [1; 0]
    = assigned_tag Example.diamond_tree [1].
Proof.
  destruct (type_tag_by_depth Example.diamond_tree [1]
              (Node (str Example.Y) "Y" [Node (str Example.A) "A" []]))
    as [H1 _]; [by vm_compute; set_solver|reflexivity|].
  destruct (type_tag_by_depth Example.diamond_tree [1; 0]
              (Node (str Example.A) "A" []))
    as [_ H2]; [by vm_compute; set_solver|reflexivity|].
  split; [apply H1; cbn; lia|].
  apply (H2 [1] 0); [reflexivity|cbn; lia].
Defined.

(** ** The store under the statements *)

Section StoreFacts.

Lemma matches_spec tg i n :
  matches tg i n = true ↔ tg ∈ n_labels n ∧ n_id n = Some i.
Proof.
  unfold matches. rewrite andb_true_iff, !bool_decide_eq_true. done.
Qed.

Lemma existsb_elem_of {A} (f : A → bool) l :
  existsb f l = true ↔ ∃ x, x ∈ l ∧ f x = true.
Proof.
  rewrite existsb_exists. by setoid_rewrite list_elem_of_In.
Qed.

Lemma touch_id tg i l n : n_id (touch tg i l n) = n_id n.
Proof. unfold touch. by destruct (matches tg i n). Qed.

Lemma touch_labels tg i l n : n_labels (touch tg i l n) = n_labels n.
Proof. unfold touch. by destruct (matches tg i n). Qed.

Lemma matches_touch tg i tg' i' l n :
  matches tg i (touch tg' i' l n) = matches tg i n.
Proof. unfold matches. by rewrite touch_id, touch_labels. Qed.

Lemma upload_node_nodes d i l tg :
  nodes (upload_node d i l tg) =
    if existsb (matches tg i) (nodes d) then touch tg i l <$> nodes d
    else nodes d ++ [GNode [tg] (Some i) (Some l)].
Proof. unfold upload_node. by destruct (existsb _ _). Qed.

Lemma upload_node_edges d i l tg : edges (upload_node d i l tg) = edges d.
Proof. unfold upload_node. by destruct (existsb _ _). Qed.

Lemma has_id_upload_node d i l tg : has_id i (upload_node d i l tg).
Proof.
  unfold has_id. rewrite upload_node_nodes.
  destruct (existsb _ _) eqn:Hex.
  - apply existsb_elem_of in Hex as (n & Hn & Hm).
    exists (touch tg i l n). rewrite touch_id. split.
    + apply list_elem_of_fmap. eauto.
    + by apply matches_spec in Hm as [_ ?].
  - eexists. split; [apply elem_of_app; right; by apply list_elem_of_singleton|done].
Qed.

Lemma has_id_run_op i d o : has_id i d → has_id i (run_op d o).
Proof.
  intros (n & Hn & Hid). destruct o as [j l tg|p c]; cbn; [|by exists n].
  unfold has_id. rewrite upload_node_nodes. destruct (existsb _ _).
  - exists (touch tg j l n). rewrite touch_id. split; [|done].
    apply list_elem_of_fmap. eauto.
  - exists n. split; [|done]. apply elem_of_app. by left.
Qed.

Lemma run_ops_app d a b : run_ops d (a ++ b) = run_ops (run_ops d a) b.
Proof. apply foldl_app. Qed.

Lemma has_id_run_ops i d ops : has_id i d → has_id i (run_ops d ops).
Proof.
  revert d. induction ops as [|o ops IH]; intros d Hd; [done|].
  cbn. apply IH. by apply has_id_run_op.
Qed.

(** Once a statement has upserted an id, a node carries it. *)
Lemma has_id_after_upsert i l tg d ops :
  Upsert i l tg ∈ ops → has_id i (run_ops d ops).
Proof.
  intros (a & b & ->)%list_elem_of_split.
  rewrite run_ops_app. cbn. apply has_id_run_ops, has_id_upload_node.
Qed.

End StoreFacts.

(** C10. The upload of a tree is a depth-first pre-order traversal: the
    ids are upserted in pre-order, every edge merge comes right after
    the upsert of its child, and its parent was upserted before that;
    hence, from any store, both endpoints exist when the merge runs. *)
Theorem merge_after_both_upserts (root : node) :
  upsert_ids (traverse_and_upload root) = preorder root
  ∧ ∀ pre p c post,
      traverse_and_upload root = pre ++ MergeEdge p c :: post →
      (∃ pre' l tg l' tg',
         pre = pre' ++ [Upsert c l tg] ∧ Upsert p l' tg' ∈ pre')
      ∧ ∀ d, has_id p (run_ops d pre) ∧ has_id c (run_ops d pre).
Proof.
  split; [apply upsert_ids_recurse|].
  intros pre p c post Heq.
  destruct (recurse_edge_ok root None None 0 pre p c post Heq)
    as (pre' & l & tg & -> & [[[=] _]|(l' & tg' & Hin)]).
  split; [by exists pre', l, tg, l', tg'|].
  intros d. split.
  - apply (has_id_after_upsert p l' tg'). apply elem_of_app. by left.
  - apply (has_id_after_upsert c l tg). apply elem_of_app. right.
    by apply list_elem_of_singleton.
Qed.

Lemma merge_after_both_upserts_witness :
  let pre := [Upsert "http://example.org/C" "Animal" "Animal";
              Upsert "http://example.org/B" "Mammal" "Mammal"] in
  has_id "http://example.org/C" (run_ops empty_db pre)
  ∧ has_id "http://example.org/B" (run_ops empty_db pre).
Proof.
  intros pre.
  destruct (merge_after_both_upserts Example.animals_tree) as [_ H].
  apply (H pre "http://example.org/C" "http://example.org/B"
           [Upsert "http://example.org/A" "Cat" "Mammal";
            MergeEdge "http://example.org/B" "http://example.org/A"]).
  reflexivity.
Defined.

(** ** Dictionaries, sets and the scan *)

Section DictFacts.
Context {K V : Type} `{EqDecision K}.
Implicit Types (k : K) (v : V) (d : list (K * V)).

Lemma dict_get_set_eq k v d : dict_get k (dict_set k v d) = Some v.
Proof.
  induction d as [|[k' v'] d IH]; cbn.
  - by rewrite decide_True.
  - destruct (decide (k' = k)) as [->|Hne]; cbn.
    + by rewrite decide_True.
    + by rewrite decide_False.
Qed.

Lemma dict_get_set_ne k k0 v d :
  k0 ≠ k → dict_get k (dict_set k0 v d) = dict_get k d.
Proof.
  intros Hne. induction d as [|[k' v'] d IH]; cbn.
  - by rewrite decide_False.
  - destruct (decide (k' = k0)) as [->|Hne']; cbn.
    + by rewrite !decide_False.
    + by rewrite IH.
Qed.

Lemma dict_get_set k k0 v d :
  dict_get k (dict_set k0 v d) =
    if decide (k0 = k) then Some v else dict_get k d.
Proof.
  destruct (decide (k0 = k)) as [->|Hne];
    [apply dict_get_set_eq | by apply dict_get_set_ne].
Qed.

Lemma dict_get_Some k v d : dict_get k d = Some v → (k, v) ∈ d.
Proof.
  induction d as [|[k' v'] d IH]; cbn; [done|].
  destruct (decide (k' = k)) as [->|Hne].
  - intros [= ->]. apply elem_of_cons. by left.
  - intros Hd. apply elem_of_cons. right. by apply IH.
Qed.

Lemma dict_get_None k d : dict_get k d = None → ∀ v, (k, v) ∉ d.
Proof.
  induction d as [|[k' v'] d IH]; cbn; intros Hd v Hin.
  - by apply elem_of_nil in Hin.
  - destruct (decide (k' = k)) as [->|Hne]; [done|].
    apply elem_of_cons in Hin as [[= -> ->]|Hin]; [done|].
    by apply (IH Hd v).
Qed.

Lemma elem_of_dict_set k v k0 v0 d :
  (k, v) ∈ dict_set k0 v0 d → (k = k0 ∧ v = v0) ∨ (k, v) ∈ d.
Proof.
  induction d as [|[k' v'] d IH]; cbn.
  - intros [= -> ->]%list_elem_of_singleton. by left.
  - destruct (decide (k' = k0)) as [->|Hne];
      intros [[= -> ->]|Hin]%elem_of_cons.
    + by left.
    + right. apply elem_of_cons. by right.
    + right. apply elem_of_cons. by left.
    + destruct (IH Hin) as [?|?]; [by left|].
      right. apply elem_of_cons. by right.
Qed.

Lemma elem_of_set_add (x y : K) (s : list K) :
  y ∈ set_add x s ↔ y = x ∨ y ∈ s.
Proof.
  unfold set_add. destruct (decide (x ∈ s)) as [Hin|Hnin].
  - split; [by right|]. by intros [->|?].
  - rewrite elem_of_app, list_elem_of_singleton. tauto.
Qed.
End DictFacts.

Section ScanFacts.

Lemma scan_snoc g t : scan (g ++ [t]) = scan_step (scan g) t.
Proof. unfold scan. by rewrite foldl_app. Qed.

Lemma subclass_edge_snoc g t s o :
  subclass_edge (g ++ [t]) s o ↔
    subclass_edge g s o
    ∨ (t = (s, RDFS.subClassOf, o) ∧ is_URIRef o = true).
Proof.
  unfold subclass_edge. rewrite elem_of_app, list_elem_of_singleton.
  intuition congruence.
Qed.

(** The scan step by cases. *)
Lemma scan_step_cases st s p o :
  (p = RDFS.label
     ∧ scan_step st (s, p, o) =
         Index (children st) (dict_set s (str o) (labels st))
           (parents st) (all_classes st))
  ∨ (p = RDFS.subClassOf ∧ is_URIRef o = true
     ∧ scan_step st (s, p, o) =
         Index (children_append o s (children st)) (labels st)
           (set_add s (parents st))
           (set_add o (set_add s (all_classes st))))
  ∨ (¬ (p = RDFS.subClassOf ∧ is_URIRef o = true) ∧ p ≠ RDFS.label
     ∧ scan_step st (s, p, o) = st).
Proof.
  unfold scan_step. destruct (decide (p = RDFS.label)) as [->|Hl];
    [by left|].
  right. destruct (decide (p = RDFS.subClassOf)) as [->|Hs].
  - destruct (is_URIRef o) eqn:Ho; [left; done|].
    right. split; [|done]. intros [_ ?]. done.
  - right. split; [|done]. by intros [? _].
Qed.

(** Marked "has a parent": subject of a recorded subclass triple. *)
Lemma parents_spec g c : c ∈ parents (scan g) ↔ has_parent g c.
Proof.
  unfold has_parent. induction g as [|[[s p] o] g IH] using rev_ind.
  - cbn. split; [by intros ?%elem_of_nil|].
    intros (o & Hin & _). by apply elem_of_nil in Hin.
  - rewrite scan_snoc. setoid_rewrite subclass_edge_snoc.
    destruct (scan_step_cases (scan g) s p o)
      as [(-> & ->)|[(-> & Ho & ->)|(Hn & _ & ->)]]; cbn.
    + rewrite IH. split; [intros (o' & ?); eauto|].
      intros (o' & [?|[[=] _]]). eauto.
    + rewrite elem_of_set_add, IH. split.
      * intros [->|(o' & ?)]; eauto.
      * intros (o' & [?|[[= -> ->] _]]); eauto.
    + rewrite IH. split; [intros (o' & ?); eauto|].
      intros (o' & [?|[[= -> -> ->] Ho]]); [eauto|]. by destruct Hn.
Qed.

(** Known classes: subjects and objects of recorded subclass triples. *)
Lemma all_classes_spec g c : c ∈ all_classes (scan g) ↔ known_class g c.
Proof.
  unfold known_class. induction g as [|[[s p] o] g IH] using rev_ind.
  - cbn. split; [by intros ?%elem_of_nil|].
    intros (s & o & [Hin _] & _). by apply elem_of_nil in Hin.
  - rewrite scan_snoc. setoid_rewrite subclass_edge_snoc.
    destruct (scan_step_cases (scan g) s p o)
      as [(-> & ->)|[(-> & Ho & ->)|(Hn & _ & ->)]]; cbn.
    + rewrite IH. split; [intros (s' & o' & ? & ?); eauto 6|].
      intros (s' & o' & [?|[[=] _]] & ?). eauto.
    + rewrite !elem_of_set_add, IH. split.
      * intros [->|[->|(s' & o' & ? & ?)]]; eauto 8.
      * intros (s' & o' & [?|[[= -> ->] _]] & Hc); [eauto 6|].
        destruct Hc as [->| ->]; eauto.
    + rewrite IH. split; [intros (s' & o' & ? & ?); eauto 6|].
      intros (s' & o' & [?|[[= -> -> ->] Ho]] & ?); [eauto|].
      by destruct Hn.
Qed.

(** The children recorded for a class are its recorded subclasses. *)
Lemma children_spec g o kids s :
  dict_get o (children (scan g)) = Some kids → s ∈ kids →
  subclass_edge g s o.
Proof.
  revert kids. induction g as [|[[s' p] o'] g IH] using rev_ind;
    intros kids; [done|].
  rewrite scan_snoc, subclass_edge_snoc.
  destruct (scan_step_cases (scan g) s' p o')
    as [(-> & ->)|[(-> & Ho & ->)|(Hn & _ & ->)]]; cbn; eauto.
  unfold children_append. rewrite dict_get_set.
  destruct (decide (o' = o)) as [->|Hne]; [|eauto].
  intros [= <-] [Hin| ->%list_elem_of_singleton]%elem_of_app; [|by right].
  destruct (dict_get o (children (scan g))) as [l|] eqn:Hl; cbn in Hin.
  - left. by eapply IH.
  - by apply elem_of_nil in Hin.
Qed.

Lemma last_snoc_omap {A B} (f : A → option B) l x :
  last (omap f (l ++ [x])) =
    match f x with Some y => Some y | None => last (omap f l) end.
Proof.
  rewrite omap_app. cbn. destruct (f x); [apply last_snoc|].
  by rewrite app_nil_r.
Qed.

(** After the scan the dictionary holds the explicit labels. *)
Lemma labels_scan_spec g c :
  dict_get c (labels (scan g)) = explicit_label g c.
Proof.
  unfold explicit_label. induction g as [|[[s p] o] g IH] using rev_ind;
    [done|].
  rewrite scan_snoc, last_snoc_omap.
  destruct (scan_step_cases (scan g) s p o)
    as [(-> & ->)|[(-> & Ho & ->)|(Hn & Hl & ->)]]; cbn.
  - rewrite dict_get_set. destruct (decide (s = c)); [done|]. apply IH.
  - apply IH.
  - rewrite decide_False by done. apply IH.
Qed.

(** The keys of the scanned labels are subjects of the graph. *)
Lemma labels_scan_keys g k v :
  (k, v) ∈ labels (scan g) → ∃ p o, (k, p, o) ∈ g.
Proof.
  induction g as [|[[s p] o] g IH] using rev_ind;
    [by intros ?%elem_of_nil|].
  rewrite scan_snoc. setoid_rewrite elem_of_app.
  setoid_rewrite list_elem_of_singleton.
  destruct (scan_step_cases (scan g) s p o)
    as [(-> & ->)|[(-> & Ho & ->)|(Hn & Hl & ->)]]; cbn.
  - intros [[-> ->]|Hin]%elem_of_dict_set; [eauto|].
    destruct (IH Hin) as (p' & o' & ?). eauto.
  - intros Hin. destruct (IH Hin) as (p' & o' & ?). eauto.
  - intros Hin. destruct (IH Hin) as (p' & o' & ?). eauto.
Qed.

End ScanFacts.

(** ** URI fragments *)

Section FragmentFacts.
Implicit Types (s r : string) (sep c : ascii).

Lemma last_seg_cons x (l : list string) :
  l ≠ [] → Str.last_seg (x :: l) = Str.last_seg l.
Proof. unfold Str.last_seg. by destruct l. Qed.

Lemma split_nonempty sep s : Str.split sep s ≠ [].
Proof.
  destruct s as [|c r]; cbn; [done|].
  destruct (Ascii.eqb c sep); [done|]. by destruct (Str.split sep r).
Qed.

Lemma split_singleton sep s seg :
  Str.split sep s = [seg] → seg = s ∧ Str.contains sep s = false.
Proof.
  revert seg. induction s as [|c r IH]; cbn; intros seg.
  - by intros [= <-].
  - destruct (Ascii.eqb c sep).
    + intros [= _ Hr]. by destruct (split_nonempty sep r Hr).
    + destruct (Str.split sep r) as [|seg' segs] eqn:Hr.
      { by destruct (split_nonempty sep r Hr). }
      intros [= <- ->]. by destruct (IH seg' eq_refl) as [-> ->].
Qed.

Lemma split_no_sep sep s :
  Str.contains sep s = false → Str.split sep s = [s].
Proof.
  induction s as [|c r IH]; cbn; [done|].
  intros [Hc Hr]%orb_false_elim. by rewrite Hc, (IH Hr).
Qed.

Lemma ends_with_contains sep s :
  Str.ends_with sep s = true → Str.contains sep s = true.
Proof.
  induction s as [|c r IH]; [done|]. cbn [Str.contains].
  destruct r as [|d r]; cbn [Str.ends_with].
  - intros ->. done.
  - intros Hr. rewrite (IH Hr). apply orb_true_r.
Qed.

(** With a separator in it, [split] ends on what follows the last. *)
Lemma split_last_after sep s :
  Str.contains sep s = true →
  after_last sep s (Str.last_seg (Str.split sep s)).
Proof.
  induction s as [|c r IH]; [done|]. cbn [Str.contains Str.split].
  destruct (Ascii.eqb c sep) eqn:Hc.
  - apply Ascii.eqb_eq in Hc as ->. intros _.
    rewrite last_seg_cons by apply split_nonempty.
    destruct (Str.contains sep r) eqn:Hr.
    + destruct (IH eq_refl) as [[pre Hpre] Hfrag]. split; [|done].
      exists (String sep pre). by rewrite Hpre at 1.
    + rewrite (split_no_sep _ _ Hr). cbn. split; [|done]. by exists "".
  - cbn. intros Hr.
    destruct (Str.split sep r) as [|seg segs] eqn:Hsplit.
    { by destruct (split_nonempty sep r Hsplit). }
    destruct segs as [|seg2 segs].
    { apply split_singleton in Hsplit as [_ Hno]. congruence. }
    rewrite last_seg_cons by done.
    rewrite <- (last_seg_cons seg) by done.
    destruct (IH Hr) as [[pre Hpre] Hfrag]. split; [|done].
    exists (String c pre). by rewrite Hpre at 1.
Qed.

Lemma last_seg_split_empty sep s :
  Str.last_seg (Str.split sep s) = "" ↔
    s = "" ∨ Str.ends_with sep s = true.
Proof.
  induction s as [|c r IH]; [cbn; tauto|]. cbn [Str.split].
  destruct (Ascii.eqb c sep) eqn:Hc.
  - rewrite last_seg_cons by apply split_nonempty. rewrite IH.
    destruct r as [|d r]; cbn [Str.ends_with]; [tauto|].
    split; [intros [?|?]; [done|by right]|intros [?|?]; [done|by right]].
  - destruct (Str.split sep r) as [|seg segs] eqn:Hsplit.
    { by destruct (split_nonempty sep r Hsplit). }
    destruct segs as [|seg2 segs].
    + apply split_singleton in Hsplit as [-> Hno]. cbn.
      split; [done|]. intros [?|Hend]; [done|].
      destruct r as [|d r]; [congruence|].
      apply ends_with_contains in Hend. congruence.
    + rewrite last_seg_cons by done.
      rewrite <- (last_seg_cons seg) by done. rewrite IH.
      destruct r as [|d r]; [done|]. cbn [Str.ends_with].
      split; [intros [?|?]; [done|by right]|intros [?|?]; [done|by right]].
Qed.

Lemma rstrip_not_ends_with c s : Str.ends_with c (Str.rstrip c s) = false.
Proof.
  induction s as [|d r IH]; [done|]. cbn [Str.rstrip].
  destruct (Str.rstrip c r) as [|e r'].
  - destruct (Ascii.eqb d c) eqn:Hd; [done|]. cbn. done.
  - exact IH.
Qed.

Lemma rstrip_empty c s :
  Str.rstrip c s = "" ↔ Str.all_chars (fun d => Ascii.eqb d c) s = true.
Proof.
  induction s as [|d r IH]; [done|]. cbn [Str.rstrip Str.all_chars].
  rewrite andb_true_iff, <- IH.
  destruct (Str.rstrip c r) as [|e r'].
  - destruct (Ascii.eqb d c); split; (done || by intros [? ?]).
  - split; [done|]. by intros [_ ?].
Qed.

(** [extract_fragment] returns the fragment the specification
    describes. *)
Lemma extract_fragment_of uri : fragment_of uri (extract_fragment uri).
Proof.
  unfold fragment_of, extract_fragment.
  destruct (Str.contains "#" uri) eqn:Hh; [by apply split_last_after|].
  destruct (Str.contains "/" (Str.rstrip "/" uri)) eqn:Hs;
    [by apply split_last_after|].
  by rewrite (split_no_sep _ _ Hs).
Qed.

Lemma extract_fragment_empty uri :
  extract_fragment uri = "" ↔ empty_fragment uri = true.
Proof.
  unfold extract_fragment, empty_fragment.
  destruct (Str.contains "#" uri) eqn:Hh; rewrite last_seg_split_empty.
  - split; [|by right]. intros [->|?]; done.
  - rewrite rstrip_not_ends_with, <- rstrip_empty. split; [|by left].
    by intros [?|?].
Qed.

End FragmentFacts.

(** ** Resolved labels *)

Section LabelFacts.
Context `{PyRuntime}.

Lemma elem_of_set_order c l : c ∈ set_order l ↔ c ∈ l.
Proof. by rewrite set_order_perm. Qed.

Lemma fill_step_get c lbls x :
  dict_get c (fill_step lbls x) =
    match dict_get c lbls with
    | Some v => Some v
    | None => if decide (x = c) then Some (extract_fragment (str c)) else None
    end.
Proof.
  unfold fill_step. destruct (dict_get x lbls) as [v|] eqn:Hx.
  - destruct (dict_get c lbls) eqn:Hc; [done|].
    destruct (decide (x = c)) as [->|]; [congruence|done].
  - rewrite dict_get_set. destruct (decide (x = c)) as [->|Hne].
    + by rewrite Hx.
    + by destruct (dict_get c lbls).
Qed.

(** The loop of lines 50-52 keeps what is there and gives the fragment
    to the classes that have no label. *)
Lemma fill_get c lbls l :
  dict_get c (foldl fill_step lbls l) =
    match dict_get c lbls with
    | Some v => Some v
    | None => if decide (c ∈ l) then Some (extract_fragment (str c)) else None
    end.
Proof.
  revert lbls. induction l as [|x l IH]; intros lbls; cbn.
  - destruct (dict_get c lbls); [done|].
    rewrite decide_False; [done|apply not_elem_of_nil].
  - rewrite IH, fill_step_get. destruct (dict_get c lbls); [done|].
    destruct (decide (x = c)) as [->|Hne].
    + rewrite decide_True; [done|]. apply elem_of_cons. by left.
    + destruct (decide (c ∈ l)) as [Hin|Hnin].
      * rewrite decide_True; [done|]. apply elem_of_cons. by right.
      * rewrite decide_False; [done|].
        intros [->|?]%elem_of_cons; done.
Qed.

Lemma fill_keys k v lbls l :
  (k, v) ∈ foldl fill_step lbls l → (k, v) ∈ lbls ∨ k ∈ l.
Proof.
  revert lbls. induction l as [|x l IH]; intros lbls; cbn; [by left|].
  intros [Hin|Hin]%IH.
  - unfold fill_step in Hin. destruct (dict_get x lbls); [by left|].
    apply elem_of_dict_set in Hin as [[-> _]|?]; [|by left].
    right. apply elem_of_cons. by left.
  - right. apply elem_of_cons. by right.
Qed.

Lemma resolved_get g c :
  dict_get c (resolved_labels g) =
    match explicit_label g c with
    | Some v => Some v
    | None =>
        if decide (c ∈ all_classes (scan g))
        then Some (extract_fragment (str c)) else None
    end.
Proof.
  unfold resolved_labels. rewrite fill_get, labels_scan_spec.
  destruct (explicit_label g c); [done|].
  destruct (decide (c ∈ all_classes (scan g))) as [Hin|Hnin].
  - rewrite decide_True; [done|]. by apply elem_of_set_order.
  - rewrite decide_False; [done|]. by rewrite elem_of_set_order.
Qed.

(** Every key of the label dictionary is a subject of the graph or a
    named superclass. *)
Lemma resolved_keys g k v :
  (k, v) ∈ resolved_labels g →
  (∃ p o, (k, p, o) ∈ g) ∨ (∃ s p, (s, p, k) ∈ g ∧ is_URIRef k = true).
Proof.
  intros [Hin|Hin]%fill_keys.
  - left. by eapply labels_scan_keys.
  - apply elem_of_set_order, all_classes_spec in Hin
      as (s & o & [Hin Ho] & [->| ->]); eauto 6.
Qed.

End LabelFacts.

(** C8, as the code has it.  Every known class, that is every subject
    and every object of a [subClassOf] triple whose object is a URI, has
    a resolved label: its explicit label (of the label triple scanned
    last) if it has one, otherwise the fragment of its URI, which is what
    follows the last [#], or without [#] what follows the last [/] once
    all trailing [/] are stripped.  The derived label is empty exactly
    for a URI that ends in [#] and for a URI without [#] that consists
    of [/] only; an explicit label is kept as it is, empty or not. *)
Theorem known_class_label `{PyRuntime} (g : graph) (c : term) :
  known_class g c →
  ∃ l, dict_get c (resolved_labels g) = Some l
       ∧ match explicit_label g c with
         | Some e => l = e
         | None =>
             l = extract_fragment (str c)
             ∧ fragment_of (str c) l
             ∧ (l = "" ↔ empty_fragment (str c) = true)
         end.
Proof.
  intros Hc%all_classes_spec. rewrite resolved_get.
  destruct (explicit_label g c) as [e|]; [by exists e|].
  rewrite decide_True by done. eexists. split; [done|].
  split; [done|]. split; [apply extract_fragment_of|].
  apply extract_fragment_empty.
Qed.

Section ClosedLabels.
#[local] Existing Instance ascii_runtime.

Lemma known_class_label_witness :
  dict_get Example.C (resolved_labels Example.chain) = Some "C".
Proof.
  destruct (known_class_label Example.chain Example.C)
    as (l & Hl & -> & _).
  { exists Example.B, Example.C. split; [|by right].
    split; [|done]. apply elem_of_cons. right. apply elem_of_cons. by left. }
  exact Hl.
Defined.

(** C8, as stated, fails: a class named by a URI that ends in [#]
    takes part in a [subClassOf] triple and its resolved label is the
    empty string. *)
Lemma hash_uri_label_empty :
  participates Example.hash_ns (URIRef "http://example.org/onto#")
  ∧ dict_get (URIRef "http://example.org/onto#")
      (resolved_labels Example.hash_ns) = Some "".
Proof.
  split; [|reflexivity].
  exists Example.A, (URIRef "http://example.org/onto#").
  split; [|by right]. apply elem_of_cons. by left.
Qed.
End ClosedLabels.

(** ** Tree Builder *)

Section BuildFacts.
Implicit Types (ch : list (term * list term)) (lbls : list (term * string)).

(** More fuel does not change a tree that was built. *)
Lemma build_json_tree_mono fuel fuel' ch lbls nd t :
  build_json_tree fuel ch lbls nd = Some t → fuel ≤ fuel' →
  build_json_tree fuel' ch lbls nd = Some t.
Proof.
  revert fuel' nd t. induction fuel as [|fuel IH]; intros fuel' nd t;
    [done|].
  destruct fuel' as [|fuel']; [lia|]. cbn. intros Hb Hle.
  destruct (mapM (build_json_tree fuel ch lbls) _) as [kids|] eqn:Hk;
    [|done].
  assert (mapM (build_json_tree fuel' ch lbls)
            (default [] (dict_get nd ch)) = Some kids) as ->; [|done].
  apply mapM_Some. apply mapM_Some in Hk.
  eapply Forall2_impl; [exact Hk|]. intros x y Hxy. apply IH; [done|lia].
Qed.

Lemma mapM_build_mono fuel fuel' ch lbls l ts :
  mapM (build_json_tree fuel ch lbls) l = Some ts → fuel ≤ fuel' →
  mapM (build_json_tree fuel' ch lbls) l = Some ts.
Proof.
  rewrite !mapM_Some. intros Hall Hle.
  eapply Forall2_impl; [exact Hall|]. intros x y Hxy.
  by apply (build_json_tree_mono fuel).
Qed.

(** The builder reads the label dictionary through [get] only. *)
Lemma build_json_tree_labels_ext fuel ch lbls lbls' nd :
  (∀ k, dict_get k lbls = dict_get k lbls') →
  build_json_tree fuel ch lbls nd = build_json_tree fuel ch lbls' nd.
Proof.
  intros Hext. revert nd. induction fuel as [|fuel IH]; intros nd; [done|].
  cbn. rewrite (mapM_ext _ _ _ IH), Hext. done.
Qed.

(** With the subclass relation going up in rank, the builder returns
    on every node whose rank is below the fuel. *)
Lemma build_json_tree_total g (rank : term → nat) lbls fuel nd :
  (∀ s o, subclass_edge g s o → rank s < rank o) →
  rank nd < fuel →
  is_Some (build_json_tree fuel (children (scan g)) lbls nd).
Proof.
  intros Hrank. revert nd. induction fuel as [|fuel IH]; intros nd Hlt;
    [lia|].
  cbn.
  assert (Hk : is_Some (mapM (build_json_tree fuel (children (scan g)) lbls)
                 (default [] (dict_get nd (children (scan g)))))).
  { apply mapM_is_Some, Forall_forall. intros s Hs. apply IH.
    destruct (dict_get nd (children (scan g))) as [kids|] eqn:Hkids;
      [|by apply elem_of_nil in Hs].
    pose proof (Hrank _ _ (children_spec _ _ _ _ Hkids Hs)). lia. }
  destruct Hk as [kids ->]. by eexists.
Qed.

End BuildFacts.

(** ** Root Resolver *)

Section RootFacts.
Context `{PyRuntime}.

Lemma implicit_roots_perm g :
  implicit_roots g ≡ₚ
    filter (fun cls => cls ∉ parents (scan g)) (all_classes (scan g)).
Proof. unfold implicit_roots. by rewrite set_order_perm. Qed.

Lemma implicit_roots_spec g c :
  c ∈ implicit_roots g ↔ known_class g c ∧ ¬ has_parent g c.
Proof.
  rewrite implicit_roots_perm, list_elem_of_filter.
  rewrite parents_spec, all_classes_spec. tauto.
Qed.

Lemma set_add_NoDup {A} `{EqDecision A} (x : A) s :
  NoDup s → NoDup (set_add x s).
Proof.
  intros Hs. unfold set_add. destruct (decide (x ∈ s)); [done|].
  apply NoDup_app. split; [done|]. split; [|apply NoDup_singleton].
  intros y Hy ->%list_elem_of_singleton. done.
Qed.

Lemma all_classes_NoDup g : NoDup (all_classes (scan g)).
Proof.
  induction g as [|[[s p] o] g IH] using rev_ind; [constructor|].
  rewrite scan_snoc.
  destruct (scan_step_cases (scan g) s p o)
    as [(-> & ->)|[(-> & Ho & ->)|(Hn & _ & ->)]]; cbn; [done| |done].
  by do 2 apply set_add_NoDup.
Qed.

Lemma implicit_roots_NoDup g : NoDup (implicit_roots g).
Proof.
  rewrite implicit_roots_perm. apply NoDup_filter, all_classes_NoDup.
Qed.

End RootFacts.

(** A graph with one root, checked with sets in insertion order,
    gives the same single tree under every runtime. *)
Lemma parse_single_root `{PyRuntime} g fuel n r t :
  @implicit_roots ascii_runtime g = [r] →
  build_json_tree n (children (scan g)) (@resolved_labels ascii_runtime g) r
    = Some t →
  n ≤ fuel →
  resolve_roots g None = Ok [r] ∧ parse_ttl_to_json fuel g None = Ok [t].
Proof.
  intros Hroots Hbuild Hle.
  assert (Hr : implicit_roots g = [r]).
  { apply Permutation_singleton_r. rewrite implicit_roots_perm.
    rewrite <- Hroots. symmetry. apply (@implicit_roots_perm ascii_runtime). }
  unfold parse_ttl_to_json, resolve_roots. rewrite Hr. split; [done|].
  cbn. erewrite (build_json_tree_labels_ext fuel).
  - by rewrite (build_json_tree_mono _ _ _ _ _ _ Hbuild Hle).
  - intros k. by rewrite !resolved_get.
Qed.


(** ** The example hierarchy, in every order of its triples *)

Section ExampleChecks.
#[local] Existing Instance ascii_runtime.

Lemma chain_orders_checked :
  (fun g => (implicit_roots g,
             build_json_tree 3 (children (scan g)) (resolved_labels g)
               Example.C)) <$> permutations Example.chain
  = replicate 2 ([Example.C], Some Example.chain_tree).
Proof. vm_compute. reflexivity. Qed.

Lemma animals_orders_checked :
  (fun g => (implicit_roots g,
             build_json_tree 3 (children (scan g)) (resolved_labels g)
               Example.C)) <$> permutations Example.animals
  = replicate 120 ([Example.C], Some Example.animals_tree).
Proof. vm_compute. reflexivity. Qed.
End ExampleChecks.

Lemma parse_any_order `{PyRuntime} g0 k r t g fuel :
(fun g => (@implicit_roots ascii_runtime g,
           build_json_tree 3 (children (scan g))
             (@resolved_labels ascii_runtime g) r)) <$> permutations g0
= replicate k ([r], Some t) →
g0 ≡ₚ g → 3 ≤ fuel →
resolve_roots g None = Ok [r] ∧ parse_ttl_to_json fuel g None = Ok [t].
Proof.
intros Hchk Hg%permutations_Permutation Hfuel.
apply (list_elem_of_fmap_2
         (fun g => (@implicit_roots ascii_runtime g,
                    build_json_tree 3 (children (scan g))
                      (@resolved_labels ascii_runtime g) r))) in Hg.
rewrite Hchk in Hg. apply elem_of_replicate_inv in Hg.
injection Hg as Hroots Hbuild. by apply (parse_single_root g fuel 3).
Qed.

(** C4, as the code has it.  Without a root label the resolver returns,
  each once, exactly the known classes that are not marked "has a
  parent", that is, that are not the subject of a [subClassOf] triple
  whose object is a URI.  For the graph [(A subClassOf B)],
  [(B subClassOf C)], in either order, the roots are [C] alone and the
  one tree built is [C] with child [B] with child [A]. *)
Theorem implicit_roots_exact `{PyRuntime} (g : graph) :
resolve_roots g None = Ok (implicit_roots g)
∧ NoDup (implicit_roots g)
∧ (∀ c, c ∈ implicit_roots g ↔ known_class g c ∧ ¬ has_parent g c)
∧ (∀ g' fuel, Example.chain ≡ₚ g' → 3 ≤ fuel →
     resolve_roots g' None = Ok [Example.C]
     ∧ parse_ttl_to_json fuel g' None = Ok [Example.chain_tree]).
Proof.
split; [done|]. split; [apply implicit_roots_NoDup|].
split; [apply implicit_roots_spec|].
intros g' fuel. apply parse_any_order with (k := 2).
exact chain_orders_checked.
Qed.

Section ClosedRoots.
#[local] Existing Instance ascii_runtime.

Lemma implicit_roots_exact_witness :
  parse_ttl_to_json 3 Example.chain None = Ok [Example.chain_tree].
Proof.
  destruct (implicit_roots_exact Example.chain) as (_ & _ & _ & Hex).
  apply (Hex Example.chain 3); [reflexivity|lia].
Defined.

(** C4, as stated, fails: [B] is returned as a root although it is the
    subject of a [subClassOf] triple, one whose object is a blank
    node. *)
Lemma restricted_root_is_subject :
  resolve_roots Example.restricted None = Ok [Example.B]
  ∧ known_class Example.restricted Example.B
  ∧ subclass_subject Example.restricted Example.B.
Proof.
  split; [reflexivity|]. split.
  - exists Example.A, Example.B. split; [|by right].
    split; [|done]. apply elem_of_cons. by left.
  - exists (BNode "r1"). apply elem_of_cons. right.
    apply elem_of_cons. by left.
Qed.
End ClosedRoots.

(** C2, as the code has it.  For the tree built from
  [(A subClassOf B)], [(B subClassOf C)] with labels Cat, Mammal and
  Animal and no root label, the uploader assigns the type tag Animal to
  [C] (depth 0), Mammal to [B] (depth 1, its own sanitized label) and
  Mammal to [A] (depth 2, the tag of its parent [B]). *)
Theorem animals_type_tags `{PyRuntime} (g : graph) (fuel : nat) :
Example.animals ≡ₚ g → 3 ≤ fuel →
parse_ttl_to_json fuel g None = Ok [Example.animals_tree]
∧ upsert_tags (traverse_and_upload Example.animals_tree)
  = [ (str Example.C, "Animal"); (str Example.B, "Mammal");
      (str Example.A, "Mammal") ]
∧ assigned_tag Example.animals_tree [] = Some "Animal"
∧ assigned_tag Example.animals_tree [0] = Some "Mammal"
∧ assigned_tag Example.animals_tree [0; 0] = Some "Mammal".
Proof.
intros Hg Hfuel. split; [|by vm_compute].
eapply parse_any_order; [exact animals_orders_checked|done..].
Qed.

Section ClosedTags.
#[local] Existing Instance ascii_runtime.

Lemma animals_type_tags_witness :
  parse_ttl_to_json 3 Example.animals None = Ok [Example.animals_tree]
  ∧ assigned_tag Example.animals_tree [0; 0] = Some "Mammal".
Proof.
  destruct (animals_type_tags Example.animals 3) as (Hp & _ & _ & _ & Ht);
    [reflexivity|lia|].
  by split.
Defined.

(** C2, as stated, fails: the tree of the example is built, and the
    tag of [B] and of [A] is Mammal, not Animal. *)
Lemma animals_tags_not_all_animal :
  parse_ttl_to_json 3 Example.animals None = Ok [Example.animals_tree]
  ∧ assigned_tag Example.animals_tree [0] = Some "Mammal"
  ∧ assigned_tag Example.animals_tree [0; 0] = Some "Mammal"
  ∧ upsert_tags (traverse_and_upload Example.animals_tree)
    ≠ [ (str Example.C, "Animal"); (str Example.B, "Animal");
        (str Example.A, "Animal") ].
Proof. repeat split; try reflexivity. discriminate. Qed.
End ClosedTags.

(** ** Conversion Orchestrator *)

Lemma Forall2_elem_of_r {A B} (P : A → B → Prop) l k y :
Forall2 P l k → y ∈ k → ∃ x, x ∈ l ∧ P x y.
Proof.
intros Hall [i Hi]%list_elem_of_lookup.
destruct (Forall2_lookup_r _ _ _ _ _ Hall Hi) as (x & Hx & HP).
exists x. split; [|done]. apply list_elem_of_lookup. eauto.
Qed.

Section OrchestratorFacts.
Context `{PyRuntime}.

Lemma get_uri_by_label_None lbls rl :
  get_uri_by_label lbls rl = None ↔
    ∀ uri label, (uri, label) ∈ lbls → lower label ≠ lower rl.
Proof.
  induction lbls as [|[u l] lbls IH]; cbn.
  - split; [|done]. intros _ ? ? Hin. by apply elem_of_nil in Hin.
  - destruct (decide (lower l = lower rl)) as [Heq|Hne].
    + split; [done|]. intros Hall. destruct (Hall u l); [|done].
      apply elem_of_cons. by left.
    + rewrite IH. split.
      * intros Hall u' l' [[= -> ->]|Hin]%elem_of_cons; eauto.
      * intros Hall u' l' Hin. apply (Hall u' l').
        apply elem_of_cons. by right.
Qed.

Lemma get_uri_by_label_Some lbls rl uri :
  get_uri_by_label lbls rl = Some uri →
  ∃ label, (uri, label) ∈ lbls ∧ lower label = lower rl.
Proof.
  induction lbls as [|[u l] lbls IH]; cbn; [done|].
  destruct (decide (lower l = lower rl)) as [Heq|Hne].
  - intros [= ->]. exists l. split; [|done]. apply elem_of_cons. by left.
  - intros (l' & Hin & Hl')%IH. exists l'. split; [|done].
    apply elem_of_cons. by right.
Qed.

Lemma truthy_nonempty s : Str.truthy s = true ↔ s ≠ "".
Proof. by destruct s. Qed.

Lemma resolved_key_truthy g k v :
  nonempty_ids g → (k, v) ∈ resolved_labels g → Str.truthy (str k) = true.
Proof.
  intros Hne [(p & o & Hin)|(s & p & Hin & Hk)]%resolved_keys;
    apply truthy_nonempty, (Hne _ _ _ Hin). done.
Qed.

(** The roots the resolver returns carry non-empty identifiers. *)
Lemma resolve_roots_truthy g rl roots :
  nonempty_ids g → resolve_roots g rl = Ok roots →
  Forall (fun r => Str.truthy (str r) = true) roots.
Proof.
  intros Hne.
  assert (Himp : Forall (fun r => Str.truthy (str r) = true)
                   (implicit_roots g)).
  { apply Forall_forall. intros r [Hk _]%implicit_roots_spec.
    destruct Hk as (s & o & [Hin Ho] & [->| ->]);
      apply truthy_nonempty, (Hne _ _ _ Hin). done. }
  unfold resolve_roots. destruct rl as [rl|]; [|by intros [= <-]].
  destruct (Str.truthy rl); [|by intros [= <-]].
  destruct (get_uri_by_label _ _) as [u|]; [|done].
  destruct (Str.truthy (str u)) eqn:Hu; [|done].
  intros [= <-]. by repeat constructor.
Qed.

(** Every node of a built tree carries a non-empty id. *)
Lemma build_json_tree_ids g lbls fuel nd t :
  nonempty_ids g → Str.truthy (str nd) = true →
  build_json_tree fuel (children (scan g)) lbls nd = Some t →
  ids_nonempty t = true.
Proof.
  intros Hne. revert nd t. induction fuel as [|fuel IH]; intros nd t Hnd;
    [done|].
  cbn. destruct (mapM _ _) as [kids|] eqn:Hk; [|done]. intros [= <-].
  cbn. rewrite Hnd. cbn. apply forallb_forall. intros kid Hkid%list_elem_of_In.
  apply mapM_Some in Hk.
  destruct (Forall2_elem_of_r _ _ _ _ Hk Hkid) as (s & Hs & Hb).
  apply (IH s); [|done].
  destruct (dict_get nd (children (scan g))) as [l|] eqn:Hl;
    [|by apply elem_of_nil in Hs].
  destruct (children_spec _ _ _ _ Hl Hs) as [Hin _].
  apply truthy_nonempty, (Hne _ _ _ Hin).
Qed.

(** With the subclass relation going up in rank and the root found,
    enough fuel builds the trees. *)
Lemma parse_total g rl (rank : term → nat) roots :
  (∀ s o, subclass_edge g s o → rank s < rank o) →
  resolve_roots g rl = Ok roots →
  ∃ trees, ∀ fuel, S (max_list (rank <$> roots)) ≤ fuel →
    parse_ttl_to_json fuel g rl = Ok trees.
Proof.
  intros Hrank Hroots.
  destruct (mapM_is_Some_2
              (build_json_tree (S (max_list (rank <$> roots)))
                 (children (scan g)) (resolved_labels g)) roots)
    as [trees Htrees].
  { apply Forall_forall. intros r Hr.
    apply (build_json_tree_total g rank); [done|].
    apply Nat.lt_succ_r, max_list_elem_of_le, list_elem_of_fmap. eauto. }
  exists trees. intros fuel Hfuel. unfold parse_ttl_to_json.
  rewrite Hroots. by rewrite (mapM_build_mono _ _ _ _ _ _ Htrees Hfuel).
Qed.

Lemma parse_ids g rl fuel trees :
  nonempty_ids g → parse_ttl_to_json fuel g rl = Ok trees →
  forallb ids_nonempty trees = true.
Proof.
  intros Hne. unfold parse_ttl_to_json.
  destruct (resolve_roots g rl) as [roots|] eqn:Hroots; [|done].
  destruct (mapM _ roots) as [ts|] eqn:Hts; [|done]. intros [= <-].
  apply forallb_forall. intros t Ht%list_elem_of_In.
  apply mapM_Some in Hts.
  destruct (Forall2_elem_of_r _ _ _ _ Hts Ht) as (r & Hr & Hb).
  apply (build_json_tree_ids g (resolved_labels g) fuel r); [done| |done].
  pose proof (resolve_roots_truthy g rl roots Hne Hroots) as Hall.
  by apply (proj1 (Forall_forall _ _) Hall).
Qed.

End OrchestratorFacts.

Section CountFacts.

Lemma fold_left_count kids a :
  fold_left (fun count child => count + count_nodes child) kids a
  = a + sum_list (count_nodes <$> kids).
Proof.
  revert a. induction kids as [|c kids IH]; intros a; cbn; [lia|].
  rewrite IH. lia.
Qed.

Lemma count_nodes_eq i l kids :
  count_nodes (Node i l kids) = 1 + sum_list (count_nodes <$> kids).
Proof. cbn [count_nodes]. apply fold_left_count. Qed.

Lemma foldl_count trees :
  foldl (fun acc tree => acc + count_nodes tree) 0 trees
  = sum_list (count_nodes <$> trees).
Proof.
  change (sum_list (count_nodes <$> trees))
    with (0 + sum_list (count_nodes <$> trees)).
  generalize 0 as a. induction trees as [|t trees IH]; intros a; cbn; [lia|].
  rewrite IH. lia.
Qed.

(** With ids everywhere, the traversal upserts every node once. *)
Lemma recurse_count t :
  ids_nonempty t = true →
  ∀ pid pl lvl, length (upsert_tags (recurse t pid pl lvl)) = count_nodes t.
Proof.
  induction t as [i l kids IH] using node_ind.
  cbn [ids_nonempty]. intros [Hi Hkids]%andb_prop pid pl lvl.
  rewrite recurse_eq, count_nodes_eq. cbn zeta. rewrite Hi.
  cbn [upsert_tags omap list_omap]. change (omap _ ?x) with (upsert_tags x).
  rewrite upsert_tags_app, upsert_tags_edge, upsert_tags_flat_map.
  cbn [app length]. f_equal.
  generalize (if lvl <=? 1 then Some (sanitize_label l) else pl) as tg.
  intros tg. induction kids as [|c kids IHk]; [done|].
  apply Forall_cons in IH as [IHc IH].
  cbn in Hkids. apply andb_prop in Hkids as [Hc Hkids].
  cbn. rewrite length_app, (IHc Hc), (IHk IH Hkids). done.
Qed.

Lemma count_upserts_commit trees :
  forallb ids_nonempty trees = true →
  count_upserts
    (Reset :: ((fun tree => WriteTx (traverse_and_upload tree)) <$> trees))
  = sum_list (count_nodes <$> trees).
Proof.
  unfold count_upserts. cbn [flat_map event_upserts app].
  induction trees as [|t trees IH]; [done|].
  cbn. intros [Ht Hts]%andb_prop.
  rewrite length_app, (IH Hts). f_equal.
  by apply recurse_count.
Qed.

End CountFacts.

(** C5. With a non-empty root label that no resolved label matches
  case-insensitively, the conversion raises the error that names the
  label and asks nothing of the database, in preview and in commit
  mode; with a matching label (identifiers being non-empty, as rdflib
  makes them) no such error is raised. *)
Theorem root_label_not_found `{PyRuntime} (g : graph) (rl : string)
  (fuel : nat) (preview_only : bool) :
Str.truthy rl = true →
(¬ label_matches g rl →
   run_conversion fuel g (Some rl) preview_only =
     (Raised (ValueError
                ("Root label '" +:+ rl +:+ "' not found in TTL file.")),
      []))
∧ (nonempty_ids g → label_matches g rl →
   ∀ msg, (run_conversion fuel g (Some rl) preview_only).1
          ≠ Raised (ValueError msg)).
Proof.
intros Hrl. unfold run_conversion, parse_ttl_to_json, resolve_roots.
rewrite Hrl. split.
- intros Hno.
  assert (get_uri_by_label (resolved_labels g) rl = None) as ->; [|done].
  apply get_uri_by_label_None. intros u l Hin Heq. apply Hno.
  by exists u, l.
- intros Hne (u & l & Hin & Heq) msg.
  destruct (get_uri_by_label (resolved_labels g) rl) as [u'|] eqn:Hget.
  + apply get_uri_by_label_Some in Hget as (l' & Hin' & _).
    rewrite (resolved_key_truthy g u' l' Hne Hin').
    destruct (mapM _ _); [by destruct preview_only|done].
  + destruct (proj1 (get_uri_by_label_None _ _) Hget u l Hin Heq).
Qed.

Section ClosedRootLabel.
#[local] Existing Instance ascii_runtime.

Lemma root_label_not_found_witness :
  run_conversion 3 Example.animals (Some "Nonexistent") false =
    (Raised (ValueError "Root label 'Nonexistent' not found in TTL file."),
     []).
Proof.
  destruct (root_label_not_found Example.animals "Nonexistent" 3 false)
    as [Hno _]; [reflexivity|].
  apply Hno. intros (u & l & Hin & Heq).
  vm_compute in Hin.
  repeat (apply elem_of_cons in Hin as [[= -> ->]|Hin];
          [vm_compute in Heq; discriminate|]).
  by apply elem_of_nil in Hin.
Defined.
End ClosedRootLabel.

(** C7. In preview mode [run_conversion] asks nothing of the database,
  and what it returns is the sequence of trees that was built; with
  the subclass relation going up in rank and the roots resolved,
  enough fuel builds them. *)
Theorem preview_touches_nothing `{PyRuntime} (g : graph)
  (root_label : option string) :
(∀ fuel,
   (run_conversion fuel g root_label true).2 = []
   ∧ ∀ trees, parse_ttl_to_json fuel g root_label = Ok trees →
       run_conversion fuel g root_label true = (Preview trees, []))
∧ (∀ (rank : term → nat) roots,
     (∀ s o, subclass_edge g s o → rank s < rank o) →
     resolve_roots g root_label = Ok roots →
     ∃ n trees, ∀ fuel, n ≤ fuel →
       run_conversion fuel g root_label true = (Preview trees, [])).
Proof.
split.
- intros fuel. unfold run_conversion.
  destruct (parse_ttl_to_json fuel g root_label); [|done].
  split; [done|]. by intros trees [= ->].
- intros rank roots Hrank Hroots.
  destruct (parse_total g root_label rank roots Hrank Hroots)
    as [trees Htrees].
  eexists _, trees. intros fuel Hfuel. unfold run_conversion.
  by rewrite (Htrees fuel Hfuel).
Qed.

Section ClosedPreview.
#[local] Existing Instance ascii_runtime.

Lemma preview_touches_nothing_witness :
  run_conversion 3 Example.animals None true
  = (Preview [Example.animals_tree], []).
Proof.
  destruct (preview_touches_nothing Example.animals None) as [Hp _].
  apply (Hp 3). reflexivity.
Defined.
End ClosedPreview.

(** C9. In commit mode [run_conversion] returns success with the sum
  over the built trees of [count_nodes], where a node counts 1 plus
  the counts of its children; the database is reset and each tree is
  uploaded in a transaction of its own; when every node carries a
  non-empty id the count is the number of upserts sent.  With
  non-empty identifiers in the graph, the subclass relation going up
  in rank and the roots resolved, enough fuel builds such trees. *)
Theorem nodes_uploaded_count `{PyRuntime} (g : graph)
  (root_label : option string) :
(∀ i l kids,
   count_nodes (Node i l kids) = 1 + sum_list (count_nodes <$> kids))
∧ (∀ fuel trees, parse_ttl_to_json fuel g root_label = Ok trees →
     let total := sum_list (count_nodes <$> trees) in
     let evs :=
       Reset :: ((fun tree => WriteTx (traverse_and_upload tree)) <$> trees)
     in
     run_conversion fuel g root_label false = (Success total, evs)
     ∧ (forallb ids_nonempty trees = true → count_upserts evs = total))
∧ (∀ (rank : term → nat) roots,
     (∀ s o, subclass_edge g s o → rank s < rank o) →
     resolve_roots g root_label = Ok roots →
     nonempty_ids g →
     ∃ n trees, ∀ fuel, n ≤ fuel →
       parse_ttl_to_json fuel g root_label = Ok trees
       ∧ forallb ids_nonempty trees = true).
Proof.
split; [apply count_nodes_eq|]. split.
- intros fuel trees Hparse. cbn zeta. unfold run_conversion.
  rewrite Hparse, foldl_count. split; [done|].
  apply count_upserts_commit.
- intros rank roots Hrank Hroots Hne.
  destruct (parse_total g root_label rank roots Hrank Hroots)
    as [trees Htrees].
  eexists _, trees. intros fuel Hfuel. split; [by apply Htrees|].
  apply (parse_ids g root_label fuel); [done|by apply Htrees].
Qed.

Section ClosedCount.
#[local] Existing Instance ascii_runtime.

Lemma nodes_uploaded_count_witness :
  run_conversion 3 Example.diamond None false
  = (Success 5, [Reset; WriteTx (traverse_and_upload Example.diamond_tree)])
  ∧ count_upserts
      [Reset; WriteTx (traverse_and_upload Example.diamond_tree)] = 5.
Proof.
  destruct (nodes_uploaded_count Example.diamond None) as (_ & Hc & _).
  destruct (Hc 3 [Example.diamond_tree]) as [Hrun Hcount]; [reflexivity|].
  split; [exact Hrun|]. apply Hcount. reflexivity.
Defined.
End ClosedCount.

(** ** Uploading a tree twice: the nodes *)

Section NodeIdempotence.
Implicit Types (n m : gnode) (ns : list gnode) (o : op) (ops : list op).

Lemma nodes_run_op d o : nodes (run_op d o) = run_op_nodes (nodes d) o.
Proof. destruct o; cbn; [apply upload_node_nodes|done]. Qed.

Lemma nodes_run_ops d ops :
  nodes (run_ops d ops) = foldl run_op_nodes (nodes d) ops.
Proof.
  revert d. induction ops as [|o ops IH]; intros d; [done|].
  cbn. by rewrite IH, nodes_run_op.
Qed.

Lemma touch_op_id n o : n_id (touch_op n o) = n_id n.
Proof. destruct o; [apply touch_id|done]. Qed.

Lemma touch_op_labels n o : n_labels (touch_op n o) = n_labels n.
Proof. destruct o; [apply touch_labels|done]. Qed.

Lemma touch_ops_cons o ops n :
  touch_ops (o :: ops) n = touch_ops ops (touch_op n o).
Proof. reflexivity. Qed.

Lemma touch_ops_id ops n : n_id (touch_ops ops n) = n_id n.
Proof.
  revert n. induction ops as [|o ops IH]; intros n; [done|].
  by rewrite touch_ops_cons, IH, touch_op_id.
Qed.

Lemma touch_ops_labels ops n : n_labels (touch_ops ops n) = n_labels n.
Proof.
  revert n. induction ops as [|o ops IH]; intros n; [done|].
  by rewrite touch_ops_cons, IH, touch_op_labels.
Qed.

Lemma touch_ops_app a b n :
  touch_ops (a ++ b) n = touch_ops b (touch_ops a n).
Proof. apply foldl_app. Qed.

Lemma writes_key n m o :
  n_labels n = n_labels m → n_id n = n_id m → writes n o = writes m o.
Proof. intros Hl Hi. destruct o; [|done]. cbn. unfold matches. by rewrite Hl, Hi. Qed.

Lemma existsb_writes_key n m ops :
  n_labels n = n_labels m → n_id n = n_id m →
  existsb (writes n) ops = existsb (writes m) ops.
Proof.
  intros Hl Hi. induction ops as [|o ops IH]; [done|].
  cbn. by rewrite IH, (writes_key n m).
Qed.

Lemma touch_op_writes n o :
  writes n o = false → touch_op n o = n.
Proof. destruct o; [|done]. cbn. unfold touch. by intros ->. Qed.

(** The last write wins: a transaction that writes the name of a node
    forgets the name it had. *)
Lemma touch_ops_absorb ops n m :
  existsb (writes n) ops = true →
  n_labels n = n_labels m → n_id n = n_id m →
  touch_ops ops n = touch_ops ops m.
Proof.
  revert n m. induction ops as [|o ops IH]; intros n m; [done|].
  cbn [existsb]. rewrite !touch_ops_cons. intros Hex Hl Hi.
  destruct (writes n o) eqn:Hw.
  - f_equal. rewrite (writes_key n m) in Hw by done.
    destruct o as [i l tg|]; [|done]. cbn in *. unfold touch.
    rewrite Hw. rewrite (proj2 (matches_spec tg i n)).
    + unfold set_name. by rewrite Hl, Hi.
    + apply matches_spec in Hw. by rewrite Hl, Hi.
  - rewrite (touch_op_writes n o Hw).
    rewrite (writes_key n m) in Hw by done.
    rewrite (touch_op_writes m o Hw). by apply IH.
Qed.

Lemma touch_ops_untouched ops n :
  existsb (writes n) ops = false → touch_ops ops n = n.
Proof.
  induction ops as [|o ops IH]; [done|]. cbn [existsb].
  intros [Hw Hex]%orb_false_elim.
  rewrite touch_ops_cons, (touch_op_writes n o Hw). by apply IH.
Qed.

Lemma touch_ops_settled pre post n :
  existsb (writes n) post = true ∨ existsb (writes n) pre = false →
  touch_ops (pre ++ post) (touch_ops post n) = touch_ops post n.
Proof.
  intros Hcase. rewrite touch_ops_app.
  assert (Hkey : ∀ ops', n_labels (touch_ops ops' n) = n_labels n
                         ∧ n_id (touch_ops ops' n) = n_id n)
    by (intros; by rewrite touch_ops_labels, touch_ops_id).
  destruct (existsb (writes n) post) eqn:Hpost.
  - apply touch_ops_absorb.
    + rewrite <- Hpost. apply existsb_writes_key;
        by rewrite !touch_ops_labels || rewrite !touch_ops_id.
    + by rewrite !touch_ops_labels.
    + by rewrite !touch_ops_id.
  - destruct Hcase as [?|Hpre]; [done|].
    rewrite (touch_ops_untouched post n Hpost).
    rewrite (touch_ops_untouched pre n Hpre).
    by apply touch_ops_untouched.
Qed.

Lemma existsb_false {A} (f : A → bool) l x :
  existsb f l = false → x ∈ l → f x = false.
Proof.
  intros Hex Hx. destruct (f x) eqn:Hf; [|done].
  rewrite <- Hex. symmetry. apply existsb_elem_of. eauto.
Qed.

(** After a transaction each node is as the transaction leaves it. *)
Lemma run_op_nodes_settle post : ∀ pre ns,
  (∀ n, n ∈ ns →
     touch_ops (pre ++ post) (touch_ops post n) = touch_ops post n) →
  ∀ n, n ∈ foldl run_op_nodes ns post → touch_ops (pre ++ post) n = n.
Proof.
  induction post as [|o post IH]; intros pre ns Hns n Hn.
  { cbn in Hn. by apply (Hns n). }
  cbn [foldl] in Hn. rewrite (cons_middle o pre post), (assoc (++)).
  apply (IH (pre ++ [o]) (run_op_nodes ns o)); [|done].
  clear n Hn. intros n Hn.
  rewrite <- (assoc (++)), <- cons_middle.
  destruct o as [i l tg|p c]; cbn [run_op_nodes] in Hn.
  - destruct (existsb (matches tg i) ns) eqn:Hex.
    + apply list_elem_of_fmap in Hn as (n0 & -> & Hn0).
      apply (Hns n0 Hn0).
    + apply elem_of_app in Hn as [Hn| ->%list_elem_of_singleton].
      * pose proof (Hns n Hn) as Hs. cbn in Hs.
        unfold touch in Hs. by rewrite (existsb_false _ _ _ Hex Hn) in Hs.
      * set (new := GNode [tg] (Some i) (Some l)).
        assert (Hm : matches tg i new = true).
        { apply matches_spec. split; [|done]. by apply list_elem_of_singleton. }
        assert (Hnew : touch_ops post new
                       = touch_ops (Upsert i l tg :: post) new).
        { cbn. unfold touch. by rewrite Hm. }
        rewrite Hnew. apply touch_ops_settled. left. cbn. by rewrite Hm.
  - apply (Hns n Hn).
Qed.

Lemma existsb_run_op_nodes tg i ns o :
  existsb (matches tg i) ns = true →
  existsb (matches tg i) (run_op_nodes ns o) = true.
Proof.
  intros (n & Hn & Hm)%existsb_elem_of. apply existsb_elem_of.
  destruct o as [j l tg'|]; cbn; [|eauto].
  destruct (existsb (matches tg' j) ns).
  - exists (touch tg' j l n). rewrite matches_touch. split; [|done].
    apply list_elem_of_fmap. eauto.
  - exists n. split; [|done]. apply elem_of_app. by left.
Qed.

Lemma existsb_run_ops_nodes tg i ns ops :
  existsb (matches tg i) ns = true →
  existsb (matches tg i) (foldl run_op_nodes ns ops) = true.
Proof.
  revert ns. induction ops as [|o ops IH]; intros ns Hex; [done|].
  cbn. by apply IH, existsb_run_op_nodes.
Qed.

(** Once upserted, a pair of tag and id has its node. *)
Lemma existsb_after_upsert i l tg ns ops :
  Upsert i l tg ∈ ops →
  existsb (matches tg i) (foldl run_op_nodes ns ops) = true.
Proof.
  intros (a & b & ->)%list_elem_of_split. rewrite foldl_app. cbn [foldl].
  apply existsb_run_ops_nodes. cbn [run_op_nodes].
  destruct (existsb (matches tg i) (foldl run_op_nodes ns a)) eqn:Hex.
  - apply existsb_elem_of in Hex as (n & Hn & Hm). apply existsb_elem_of.
    exists (touch tg i l n). rewrite matches_touch. split; [|done].
    apply list_elem_of_fmap. eauto.
  - apply existsb_elem_of. eexists. split.
    + apply elem_of_app. right. by apply list_elem_of_singleton.
    + apply matches_spec. split; [|done]. by apply list_elem_of_singleton.
Qed.

(** When every upsert finds its node, the transaction only sets
    names. *)
Lemma run_op_nodes_matched ops : ∀ ns,
  (∀ i l tg, Upsert i l tg ∈ ops → existsb (matches tg i) ns = true) →
  foldl run_op_nodes ns ops = touch_ops ops <$> ns.
Proof.
  induction ops as [|o ops IH]; intros ns Hall.
  { cbn. by rewrite list_fmap_id. }
  cbn [foldl].
  assert (Hstep : run_op_nodes ns o = (fun n => touch_op n o) <$> ns).
  { destruct o as [i l tg|]; cbn.
    - rewrite (Hall i l tg); [done|]. apply elem_of_cons. by left.
    - by rewrite list_fmap_id. }
  rewrite Hstep, IH.
  - rewrite <- list_fmap_compose. done.
  - intros i l tg Hin. rewrite <- Hstep.
    apply existsb_run_op_nodes, (Hall i l tg). apply elem_of_cons. by right.
Qed.

Lemma fmap_fixed {A} (f : A → A) (l : list A) :
  (∀ x, x ∈ l → f x = x) → f <$> l = l.
Proof.
  induction l as [|x l IH]; intros Hf; [done|]. cbn.
  rewrite Hf by (apply elem_of_cons; by left).
  rewrite IH; [done|]. intros y Hy. apply Hf, elem_of_cons. by right.
Qed.

(** A second run of the same transaction leaves the nodes as they
    are. *)
Lemma run_ops_nodes_twice d ops :
  nodes (run_ops (run_ops d ops) ops) = nodes (run_ops d ops).
Proof.
  rewrite (nodes_run_ops (run_ops d ops)), run_op_nodes_matched.
  - apply fmap_fixed. intros n Hn. rewrite nodes_run_ops in Hn.
    apply (run_op_nodes_settle ops [] (nodes d)); [|done].
    intros n0 _. apply touch_ops_settled. by right.
  - intros i l tg Hin. rewrite nodes_run_ops.
    by eapply existsb_after_upsert.
Qed.

End NodeIdempotence.

(** ** Uploading a tree twice: the edges *)

Section EdgeIdempotence.
Implicit Types (ns : list gnode) (es : list (nat * nat)) (ops : list op).

Lemma find_ids_ext i k ns ns' :
  n_id <$> ns = n_id <$> ns' → find_ids i k ns = find_ids i k ns'.
Proof.
  revert k ns'. induction ns as [|n ns IH]; intros k [|n' ns']; try done.
  cbn. intros [= Hn Hns]. rewrite Hn, (IH (S k) ns' Hns). done.
Qed.

Lemma find_ids_touch i k f ns :
  (∀ n, n_id (f n) = n_id n) → find_ids i k (f <$> ns) = find_ids i k ns.
Proof.
  intros Hf. apply find_ids_ext. rewrite <- list_fmap_compose.
  apply list_fmap_ext. intros ? n _. apply Hf.
Qed.

Lemma find_ids_app i k ns ms :
  find_ids i k (ns ++ ms) = find_ids i k ns ++ find_ids i (k + length ns) ms.
Proof.
  revert k. induction ns as [|n ns IH]; intros k; cbn.
  - by rewrite Nat.add_0_r.
  - rewrite IH. replace (S k + length ns) with (k + S (length ns)) by lia.
    by destruct (decide (n_id n = Some i)).
Qed.

Lemma elem_of_rows (ps cs : list nat) a b :
  (a, b) ∈ (p ← ps; c ← cs; [(p, c)]) ↔ a ∈ ps ∧ b ∈ cs.
Proof.
  rewrite list_elem_of_bind. split.
  - intros (p & (c & Hin & Hc)%list_elem_of_bind & Hp).
    apply list_elem_of_singleton in Hin as [= -> ->]. done.
  - intros [Ha Hb]. exists a. split; [|done].
    apply list_elem_of_bind. exists b. split; [|done].
    by apply list_elem_of_singleton.
Qed.

Lemma merge_rel_incl es row e : e ∈ es → e ∈ merge_rel es row.
Proof.
  destruct row as [p c]. cbn. destruct (decide _); [done|].
  intros ?. apply elem_of_app. by left.
Qed.

Lemma foldl_merge_rel_incl rows es e :
  e ∈ es → e ∈ foldl merge_rel es rows.
Proof.
  revert es. induction rows as [|row rows IH]; intros es He; [done|].
  cbn. by apply IH, merge_rel_incl.
Qed.

Lemma foldl_merge_rel_rows rows es a b :
  (a, b) ∈ rows → (b, a) ∈ foldl merge_rel es rows.
Proof.
  revert es. induction rows as [|row rows IH]; intros es;
    [by intros ?%elem_of_nil|].
  intros [<-|Hin]%elem_of_cons; cbn; [|by apply IH].
  apply foldl_merge_rel_incl. destruct (decide _); [done|].
  apply elem_of_app. right. by apply list_elem_of_singleton.
Qed.

Lemma foldl_merge_rel_id rows es :
  (∀ a b, (a, b) ∈ rows → (b, a) ∈ es) → foldl merge_rel es rows = es.
Proof.
  induction rows as [|[a b] rows IH]; intros Hall; [done|].
  cbn. rewrite decide_True by (apply Hall, elem_of_cons; by left).
  apply IH. intros a' b' Hin. apply Hall, elem_of_cons. by right.
Qed.

(** [MERGE] never adds an edge that is there. *)
Lemma foldl_merge_rel_NoDup rows es :
  NoDup es → NoDup (foldl merge_rel es rows).
Proof.
  revert es. induction rows as [|[a b] rows IH]; intros es Hes; [done|].
  cbn. apply IH. destruct (decide _) as [|Hnin]; [done|].
  apply NoDup_app. split; [done|]. split; [|apply NoDup_singleton].
  intros e He ->%list_elem_of_singleton. done.
Qed.

Lemma create_relationship_complete d p c :
  complete (nodes (create_relationship d p c))
    (edges (create_relationship d p c)) p c.
Proof.
  intros a b Ha Hb. cbn. apply foldl_merge_rel_rows.
  by apply elem_of_rows.
Qed.

Lemma create_relationship_noop d p c :
  complete (nodes d) (edges d) p c → create_relationship d p c = d.
Proof.
  intros Hc. unfold create_relationship. rewrite foldl_merge_rel_id.
  - by destruct d.
  - intros a b [Ha Hb]%elem_of_rows. by apply Hc.
Qed.

Lemma edges_run_op_incl d o e : e ∈ edges d → e ∈ edges (run_op d o).
Proof.
  destruct o; cbn; [by rewrite upload_node_edges|].
  apply foldl_merge_rel_incl.
Qed.

Lemma single_tag_spec ops i l tg l' tg' :
  single_tag ops → Upsert i l tg ∈ ops → Upsert i l' tg' ∈ ops → tg = tg'.
Proof.
  intros Hst H1 H2.
  assert (Hin : ∀ l0 tg0, Upsert i l0 tg0 ∈ ops → (i, tg0) ∈ upsert_tags ops).
  { intros l0 tg0 H0. apply list_elem_of_omap. by exists (Upsert i l0 tg0). }
  pose proof (proj1 (Forall_forall _ _) Hst _ (Hin _ _ H1)) as Hx.
  by apply (proj1 (Forall_forall _ _) Hx _ (Hin _ _ H2)).
Qed.

(** During the first run, the merges already made stay complete: no
    node with the id of an endpoint is created later. *)
Lemma run_ops_complete ops d :
  well_ordered ops → single_tag ops →
  ∀ pre post, ops = pre ++ post →
  ∀ p c, MergeEdge p c ∈ pre →
    complete (nodes (run_ops d pre)) (edges (run_ops d pre)) p c.
Proof.
  intros Hwo Hst pre. induction pre as [|o pre IH] using rev_ind;
    intros post Hops p c Hin; [by apply elem_of_nil in Hin|].
  rewrite run_ops_app. cbn [run_ops foldl].
  fold (run_ops d pre). set (d' := run_ops d pre) in *.
  rewrite <- (assoc (++)) in Hops. cbn in Hops.
  apply elem_of_app in Hin as [Hin|Hin%list_elem_of_singleton].
  - specialize (IH _ Hops p c Hin).
    destruct o as [i l tg|p0 c0].
    + cbn [run_op]. rewrite upload_node_edges, upload_node_nodes.
      destruct (existsb (matches tg i) (nodes d')) eqn:Hex.
      * intros a b. rewrite !find_ids_touch by apply touch_id. apply IH.
      * assert (Hfresh : ∀ q, (∃ l' tg', Upsert q l' tg' ∈ pre) → i ≠ q).
        { intros q (l' & tg' & Hq) ->.
          assert (tg' = tg) as ->.
          { apply (single_tag_spec ops q l' tg' l tg Hst); rewrite Hops.
            - apply elem_of_app. by left.
            - apply elem_of_app. right. apply elem_of_cons. by left. }
          pose proof (existsb_after_upsert q l' tg (nodes d) pre Hq) as Hy.
          subst d'. rewrite nodes_run_ops in Hex. congruence. }
        apply list_elem_of_split in Hin as (a0 & b0 & Hpre).
        destruct (Hwo a0 p c (b0 ++ Upsert i l tg :: post)) as [Hp Hc].
        { rewrite Hops, Hpre, <- (assoc (++)). done. }
        assert (Hsub : ∀ q, (∃ l' tg', Upsert q l' tg' ∈ a0) →
                  ∃ l' tg', Upsert q l' tg' ∈ pre).
        { intros q (l' & tg' & Hq). exists l', tg'. rewrite Hpre.
          apply elem_of_app. by left. }
        intros a b. rewrite !find_ids_app. cbn.
        rewrite !decide_False, !app_nil_r;
          [apply IH|intros [= ?]; by apply (Hfresh c); [apply Hsub|]
                   |intros [= ?]; by apply (Hfresh p); [apply Hsub|]].
    + intros a b Ha Hb. apply edges_run_op_incl. by apply IH.
  - subst o. apply create_relationship_complete.
Qed.

(** A transaction whose upserts all find their node and whose merges
    are all complete adds no edge. *)
Lemma run_ops_edges_stable ops : ∀ d,
  (∀ i l tg, Upsert i l tg ∈ ops → existsb (matches tg i) (nodes d) = true) →
  (∀ p c, MergeEdge p c ∈ ops → complete (nodes d) (edges d) p c) →
  edges (run_ops d ops) = edges d.
Proof.
  induction ops as [|o ops IH]; intros d Hup Hmg; [done|].
  cbn [run_ops foldl]. fold (run_ops (run_op d o) ops).
  destruct o as [i l tg|p c].
  - rewrite IH.
    + cbn. apply upload_node_edges.
    + intros i' l' tg' Hin. rewrite nodes_run_op.
      apply existsb_run_op_nodes, (Hup i' l' tg'), elem_of_cons. by right.
    + intros p c Hin. cbn [run_op].
      rewrite upload_node_edges, upload_node_nodes.
      rewrite (Hup i l tg) by (apply elem_of_cons; by left).
      intros a b. rewrite !find_ids_touch by apply touch_id.
      apply Hmg, elem_of_cons. by right.
  - cbn [run_op]. rewrite create_relationship_noop
      by (apply Hmg, elem_of_cons; by left).
    apply IH.
    + intros i l tg Hin. apply (Hup i l tg), elem_of_cons. by right.
    + intros p' c' Hin. apply Hmg, elem_of_cons. by right.
Qed.

Lemma db_eq (a b : db) : nodes a = nodes b → edges a = edges b → a = b.
Proof. destruct a, b. cbn. by intros -> ->. Qed.

(** Run twice, a well-ordered transaction with one tag per id leaves
    the store as after one run. *)
Lemma run_ops_twice d ops :
  well_ordered ops → single_tag ops →
  run_ops (run_ops d ops) ops = run_ops d ops.
Proof.
  intros Hwo Hst. apply db_eq; [apply run_ops_nodes_twice|].
  apply run_ops_edges_stable.
  - intros i l tg Hin. rewrite nodes_run_ops.
    by eapply existsb_after_upsert.
  - intros p c Hin.
    apply (run_ops_complete ops d Hwo Hst ops []); [|done].
    by rewrite app_nil_r.
Qed.

Lemma traverse_well_ordered root : well_ordered (traverse_and_upload root).
Proof.
  intros pre p c post Heq.
  destruct (recurse_edge_ok root None None 0 pre p c post Heq)
    as (pre' & l & tg & -> & [[[=] _]|(l' & tg' & Hin)]).
  split.
  - exists l', tg'. apply elem_of_app. by left.
  - exists l, tg. apply elem_of_app. right. by apply list_elem_of_singleton.
Qed.

(** A transaction that upserts no id twice has one tag per id. *)
Lemma NoDup_ids_single_tag ops : NoDup (upsert_ids ops) → single_tag ops.
Proof.
  unfold single_tag, upsert_ids. generalize (upsert_tags ops) as its.
  intros its Hnd.
  assert (Hfun : ∀ i t1 t2, (i, t1) ∈ its → (i, t2) ∈ its → t1 = t2).
  { induction its as [|[k v] its IH]; intros i t1 t2;
      [by intros ?%elem_of_nil|].
    cbn in Hnd. apply NoDup_cons in Hnd as [Hk Hnd].
    assert (Hfst : ∀ t, (k, t) ∈ its → False).
    { intros t Ht. apply Hk, list_elem_of_fmap. by exists (k, t). }
    intros [E1|H1]%elem_of_cons [E2|H2]%elem_of_cons; simplify_eq.
    - done.
    - by destruct (Hfst t2).
    - by destruct (Hfst t1).
    - by apply (IH Hnd i). }
  apply Forall_forall. intros [i t1] H1. apply Forall_forall.
  intros [j t2] H2. cbn. intros ->. by apply (Hfun j).
Qed.

End EdgeIdempotence.

(** X22. A second upload of the same tree, with no reset in between,
    leaves the nodes as the first upload left them, from any store; it
    leaves the whole store (nodes and edges) as it was when every id of
    the tree is upserted under one type tag, as it is when no id occurs
    twice in the tree.  An upsert whose pattern of type tag and id has a
    match creates no node, and an edge merge never duplicates a
    [SUBCLASS_OF] edge. *)
Theorem upload_twice_same_store (root : node) (d : db) :
  nodes (run_ops (run_ops d (traverse_and_upload root))
           (traverse_and_upload root))
  = nodes (run_ops d (traverse_and_upload root))
  ∧ (single_tag (traverse_and_upload root) →
     run_ops (run_ops d (traverse_and_upload root)) (traverse_and_upload root)
     = run_ops d (traverse_and_upload root))
  ∧ (NoDup (preorder root) → single_tag (traverse_and_upload root))
  ∧ (∀ i l tg, existsb (matches tg i) (nodes d) = true →
       length (nodes (upload_node d i l tg)) = length (nodes d))
  ∧ (∀ p c, NoDup (edges d) → NoDup (edges (create_relationship d p c))).
Proof.
  split; [apply run_ops_nodes_twice|]. split; [|split; [|split]].
  - intros Hst. apply run_ops_twice; [apply traverse_well_ordered|done].
  - intros Hnd. apply NoDup_ids_single_tag.
    unfold traverse_and_upload. by rewrite upsert_ids_recurse.
  - intros i l tg Hex. rewrite upload_node_nodes, Hex. apply length_fmap.
  - intros p c Hnd. cbn. by apply foldl_merge_rel_NoDup.
Qed.

Lemma upload_twice_same_store_witness :
run_ops (run_ops empty_db (traverse_and_upload Example.animals_tree))
  (traverse_and_upload Example.animals_tree)
= run_ops empty_db (traverse_and_upload Example.animals_tree).
Proof.
destruct (upload_twice_same_store Example.animals_tree empty_db)
  as (_ & Hsame & _).
apply Hsame. unfold single_tag. vm_compute.
repeat (constructor; [repeat (constructor; [intros [=]; reflexivity || done|])|]);
  repeat constructor.
Defined.

Section ClosedIdempotence.
#[local] Existing Instance ascii_runtime.

(** C6. The code breaks the claim on the tree of a class [A] with two
    parents [X] and [Y] under one root [R]: [upload_node] merges on type
    tag and id, so the id of [A], upserted under the tags X and Y, gets
    two nodes, while [create_relationship] finds its endpoints by id
    alone.  The first upload links the X-node of [A] to [X] and to [Y]
    but the Y-node of [A] to [Y] only; the second upload, with the same
    nodes, adds the edge from the Y-node of [A] to [X]: six edges where
    there were five. *)
Theorem diamond_upload_twice_differs :
  parse_ttl_to_json 3 Example.diamond None = Ok [Example.diamond_tree]
  ∧ upsert_tags (traverse_and_upload Example.diamond_tree)
    = [ (str Example.R, "R"); (str Example.X, "X"); (str Example.A, "X");
        (str Example.Y, "Y"); (str Example.A, "Y") ]
  ∧ node_key <$> nodes (run_ops empty_db
                          (traverse_and_upload Example.diamond_tree))
    = [ (["R"], Some (str Example.R)); (["X"], Some (str Example.X));
        (["X"], Some (str Example.A)); (["Y"], Some (str Example.Y));
        (["Y"], Some (str Example.A)) ]
  ∧ edges (run_ops empty_db (traverse_and_upload Example.diamond_tree))
    = [ (1, 0); (2, 1); (3, 0); (2, 3); (4, 3) ]
  ∧ nodes (run_ops
             (run_ops empty_db (traverse_and_upload Example.diamond_tree))
             (traverse_and_upload Example.diamond_tree))
    = nodes (run_ops empty_db (traverse_and_upload Example.diamond_tree))
  ∧ edges (run_ops
             (run_ops empty_db (traverse_and_upload Example.diamond_tree))
             (traverse_and_upload Example.diamond_tree))
    = [ (1, 0); (2, 1); (3, 0); (2, 3); (4, 3); (4, 1) ].
Proof. repeat split; reflexivity. Qed.
End ClosedIdempotence.


(** * Further properties *)

(** ** Sanitized labels as identifiers *)

Section IdentFacts.

Lemma is_word_not_blank c :
  Str.is_word c = true → Ascii.eqb c " " || Ascii.eqb c "-" = false.
Proof.
  intros Hw. destruct (Ascii.eqb c " ") eqn:Hs.
  { apply Ascii.eqb_eq in Hs as ->. done. }
  destruct (Ascii.eqb c "-") eqn:Hh; [|done].
  apply Ascii.eqb_eq in Hh as ->. done.
Qed.

Lemma spec_strip_fixed s :
  Str.all_chars Str.is_word s = true → spec_strip s = s.
Proof.
  induction s as [|c s IH]; [done|]. cbn [Str.all_chars spec_strip].
  intros [Hc Hs]%andb_prop. by rewrite (is_word_not_blank c Hc), Hc, (IH Hs).
Qed.

Lemma spec_sanitize_valid s : valid_ident (spec_sanitize s) = true.
Proof.
  unfold spec_sanitize. pose proof (spec_strip_word s) as Hw.
  destruct (spec_strip s) as [|c t]; [done|].
  cbn in Hw. apply andb_prop in Hw as [Hc Ht].
  destruct (Str.is_digit c) eqn:Hd; unfold valid_ident; simpl;
    by rewrite ?Hc, ?Ht, ?Hd.
Qed.

Lemma sanitize_label_valid s : valid_ident (sanitize_label s) = true.
Proof. rewrite sanitize_label_unfold. apply spec_sanitize_valid. Qed.

Lemma valid_ident_fixed s : valid_ident s = true → sanitize_label s = s.
Proof.
  unfold valid_ident. intros [[Hne Hw]%andb_prop Hd]%andb_prop.
  rewrite sanitize_label_unfold. unfold spec_sanitize.
  rewrite (spec_strip_fixed s Hw). destruct s as [|c s]; [done|].
  cbn in Hd. by destruct (Str.is_digit c).
Qed.

End IdentFacts.

(** X1. The labels that [sanitize_label] leaves as they are are exactly
    the valid identifiers: non-empty strings over [[A-Za-z0-9_]] that do
    not start with a digit. *)
Theorem sanitize_label_fixed_points (s : string) :
  sanitize_label s = s ↔ valid_ident s = true.
Proof.
  split; [|apply valid_ident_fixed].
  intros <-. apply sanitize_label_valid.
Qed.

(** X2. Whatever the input, [sanitize_label] returns a valid
    identifier, never the empty string, and sanitizing a second time
    changes nothing. *)
Theorem sanitize_label_idempotent (s : string) :
  valid_ident (sanitize_label s) = true
  ∧ sanitize_label s ≠ ""
  ∧ sanitize_label (sanitize_label s) = sanitize_label s.
Proof.
  pose proof (sanitize_label_valid s) as Hv.
  split; [done|]. split; [|by apply valid_ident_fixed].
  intros Heq. by rewrite Heq in Hv.
Qed.

(** ** Fragments of arbitrary URIs *)

Section FragmentMore.
Implicit Types (s r : string) (sep c d : ascii).

Lemma contains_last_seg_split c sep s :
  Str.contains c (Str.last_seg (Str.split sep s)) = true →
  Str.contains c s = true.
Proof.
  induction s as [|e r IH]; [done|]. cbn [Str.split Str.contains].
  destruct (Ascii.eqb e sep).
  - rewrite last_seg_cons by apply split_nonempty.
    intros Hr%IH. rewrite Hr. apply orb_true_r.
  - destruct (Str.split sep r) as [|seg segs] eqn:Hsplit.
    { by destruct (split_nonempty sep r Hsplit). }
    destruct segs as [|seg2 segs].
    + apply split_singleton in Hsplit as [-> _]. done.
    + rewrite last_seg_cons by done. rewrite <- (last_seg_cons seg) by done.
      intros Hr%IH. rewrite Hr. apply orb_true_r.
Qed.

Lemma contains_rstrip c d s :
  Str.contains c (Str.rstrip d s) = true → Str.contains c s = true.
Proof.
  induction s as [|e r IH]; [done|]. cbn [Str.rstrip Str.contains].
  destruct (Str.rstrip d r) as [|e' r'].
  - destruct (Ascii.eqb e d); [done|]. cbn. rewrite orb_false_r.
    intros ->. done.
  - cbn [Str.contains]. intros [->|Hr]%orb_prop; [done|].
    rewrite IH; [apply orb_true_r|done].
Qed.

Lemma rstrip_no_sep c s : Str.contains c s = false → Str.rstrip c s = s.
Proof.
  induction s as [|e r IH]; [done|]. cbn [Str.rstrip Str.contains].
  intros [He Hr]%orb_false_elim. rewrite (IH Hr), He. by destruct r.
Qed.

Lemma not_contains c s :
  (Str.contains c s = true → False) → Str.contains c s = false.
Proof. destruct (Str.contains c s); [by intros []|done]. Qed.

End FragmentMore.

(** X3. For every URI, [extract_fragment] returns what follows the last
    [#], or without [#] what follows the last [/] once the trailing [/]
    are stripped.  The result never contains [#]; for a URI without [#]
    it contains no [/] either; it is empty exactly for a URI that ends
    in [#] and for a URI without [#] made of [/] only; and a URI with
    neither [#] nor [/] is its own fragment. *)
Theorem extract_fragment_spec (uri : string) :
  fragment_of uri (extract_fragment uri)
  ∧ (extract_fragment uri = "" ↔ empty_fragment uri = true)
  ∧ Str.contains "#" (extract_fragment uri) = false
  ∧ (Str.contains "#" uri = false →
       Str.contains "/" (extract_fragment uri) = false)
  ∧ (Str.contains "#" uri = false → Str.contains "/" uri = false →
       extract_fragment uri = uri).
Proof.
  split; [apply extract_fragment_of|]. split; [apply extract_fragment_empty|].
  pose proof (extract_fragment_of uri) as Hfrag.
  unfold fragment_of in Hfrag. unfold extract_fragment in *.
  destruct (Str.contains "#" uri) eqn:Hh.
  - destruct Hfrag as [_ Hno]. by repeat split.
  - split; [|split].
    + apply not_contains. intros H1%contains_last_seg_split%contains_rstrip.
      congruence.
    + intros _.
      destruct (Str.contains "/" (Str.rstrip "/" uri)) eqn:Hs.
      * by destruct Hfrag as [_ Hno].
      * by rewrite Hfrag.
    + intros _ Hs. rewrite (rstrip_no_sep _ _ Hs). by rewrite (split_no_sep _ _ Hs).
Qed.

Lemma extract_fragment_spec_witness :
  extract_fragment "Animal" = "Animal"
  ∧ Str.contains "/" (extract_fragment "http://example.org/zoo/Cat//") = false.
Proof.
  destruct (extract_fragment_spec "Animal") as (_ & _ & _ & _ & H1).
  destruct (extract_fragment_spec "http://example.org/zoo/Cat//")
    as (_ & _ & _ & H2 & _).
  split; [apply H1; reflexivity|apply H2; reflexivity].
Defined.

(** ** The hierarchy index and the trees built from it *)

Section HierarchyFacts.

Lemma all2_Forall2 {A B} (R : A → B → Prop) xs ys :
  all2 R xs ys ↔ Forall2 R xs ys.
Proof.
  revert ys. induction xs as [|x xs IH]; intros [|y ys]; cbn.
  - split; [constructor|done].
  - split; [done|inversion 1].
  - split; [done|inversion 1].
  - rewrite IH. split; [intros [? ?]; by constructor|].
    inversion 1; subst. done.
Qed.

Lemma subclasses_of_snoc g t o :
  subclasses_of (g ++ [t]) o =
    subclasses_of g o ++ subclasses_of [t] o.
Proof. apply omap_app. Qed.

(** The children dictionary holds, for every class, its recorded
    subclasses in scan order. *)
Lemma children_exact g o :
  default [] (dict_get o (children (scan g))) = subclasses_of g o.
Proof.
  induction g as [|[[s p] o'] g IH] using rev_ind; [done|].
  rewrite scan_snoc, subclasses_of_snoc. cbn [subclasses_of omap list_omap].
  destruct (scan_step_cases (scan g) s p o')
    as [(-> & ->)|[(-> & Ho & ->)|(Hn & Hl & ->)]]; cbn [children].
  - rewrite decide_False by done. cbn. by rewrite app_nil_r.
  - rewrite decide_True by done. rewrite Ho.
    unfold children_append. rewrite dict_get_set.
    destruct (decide (o' = o)) as [->|Hne]; cbn.
    + by rewrite IH.
    + by rewrite app_nil_r.
  - rewrite <- IH.
    destruct (decide (p = RDFS.subClassOf)) as [->|]; cbn;
      [|by rewrite app_nil_r].
    destruct (is_URIRef o') eqn:Ho; cbn; [|by rewrite app_nil_r].
    by destruct Hn.
Qed.

Lemma elem_of_subclasses_of g s o :
  s ∈ subclasses_of g o ↔ subclass_edge g s o.
Proof.
  unfold subclasses_of, subclass_edge. rewrite list_elem_of_omap. split.
  - intros ([[s' p] o'] & Hin & Hf).
    destruct (decide (p = RDFS.subClassOf)) as [->|]; [|done].
    destruct (is_URIRef o') eqn:Ho; [|done].
    destruct (decide (o' = o)) as [->|]; [|done].
    by injection Hf as ->.
  - intros [Hin Ho]. exists (s, RDFS.subClassOf, o). split; [done|].
    by rewrite decide_True, Ho, decide_True.
Qed.

Lemma max_list_le n (l : list nat) : Forall (fun x => x ≤ n) l → max_list l ≤ n.
Proof. induction 1 as [|x l Hx _ IH]; cbn; lia. Qed.

End HierarchyFacts.

(** X4. After the scan, the children recorded for a class are exactly
    the subjects of the [subClassOf] triples whose object is that class
    as a URI, one entry per triple, in the order in which the triples
    were enumerated; a term that is not a URI has no entry. *)
Theorem children_in_scan_order (g : graph) (o : term) :
  default [] (dict_get o (children (scan g))) = subclasses_of g o
  ∧ (∀ s, s ∈ default [] (dict_get o (children (scan g)))
          ↔ subclass_edge g s o)
  ∧ (is_URIRef o = false → dict_get o (children (scan g)) = None).
Proof.
  split; [apply children_exact|]. split.
  - intros s. rewrite children_exact. apply elem_of_subclasses_of.
  - intros Ho. destruct (dict_get o (children (scan g))) as [kids|] eqn:Hk;
      [|done].
    pose proof (children_exact g o) as Hex. rewrite Hk in Hex. cbn in Hex.
    destruct kids as [|s kids].
    + exfalso. clear Hex. revert Hk.
      induction g as [|[[s p] o'] g IH] using rev_ind; [done|].
      rewrite scan_snoc.
      destruct (scan_step_cases (scan g) s p o')
        as [(-> & ->)|[(-> & Ho' & ->)|(Hn & Hl & ->)]]; cbn [children];
        [done| |done].
      unfold children_append. rewrite dict_get_set.
      destruct (decide (o' = o)) as [->|]; [congruence|done].
    + assert (Hs : s ∈ subclasses_of g o)
        by (rewrite <- Hex; apply elem_of_cons; by left).
      apply elem_of_subclasses_of in Hs as [_ Hs]. congruence.
Qed.

Lemma children_in_scan_order_witness :
  dict_get (BNode "r1") (children (scan Example.restricted)) = None.
Proof.
  destruct (children_in_scan_order Example.restricted (BNode "r1"))
    as (_ & _ & H).
  apply H. reflexivity.
Defined.

(** X5. The builder returns a tree for a term exactly when that tree
    shows the hierarchy below the term and is no higher than the
    recursion bound: node by node the id is the string of the term, the
    label is its resolved label (the fragment when the lookup has none),
    and the children are the trees of its recorded subclasses in scan
    order. *)
Theorem build_json_tree_represents (g : graph) (lbls : list (term * string))
    (fuel : nat) (nd : term) (t : node) :
  build_json_tree fuel (children (scan g)) lbls nd = Some t
  ↔ represents g lbls t nd ∧ height t ≤ fuel.
Proof.
  revert nd t. induction fuel as [|fuel IH]; intros nd t.
  { cbn. split; [done|]. intros [_ Hh]. destruct t. cbn in Hh. lia. }
  cbn [build_json_tree]. rewrite children_exact. split.
  - destruct (mapM _ _) as [kids|] eqn:Hk; [|done]. intros [= <-].
    apply mapM_Some in Hk.
    assert (Hall : Forall2 (fun s k => represents g lbls k s ∧ height k ≤ fuel)
                     (subclasses_of g nd) kids).
    { eapply Forall2_impl; [exact Hk|]. intros s k Hb. by apply IH. }
    cbn [represents height]. split; [split; [done|split; [done|]]|].
    + apply all2_Forall2, Forall2_flip.
      eapply Forall2_impl; [exact Hall|]. by intros s k [? _].
    + apply le_n_S, max_list_le, Forall_fmap, Forall_forall.
      intros k Hin. cbn.
      destruct (Forall2_elem_of_r _ _ _ _ Hall Hin) as (s & _ & _ & ?). done.
  - destruct t as [i l kids]. cbn [represents height].
    intros [(-> & -> & Hkids%all2_Forall2) Hh].
    assert (Hk : mapM (build_json_tree fuel (children (scan g)) lbls)
                   (subclasses_of g nd) = Some kids).
    { apply mapM_Some, Forall2_flip.
      apply Forall2_same_length_lookup_2; [by eapply Forall2_length|].
      intros j k s Hkj Hsj. apply IH. split.
      - by eapply Forall2_lookup_lr.
      - assert (height k ≤ max_list (height <$> kids)); [|lia].
        apply max_list_elem_of_le, list_elem_of_fmap. exists k.
        split; [done|]. apply list_elem_of_lookup. eauto. }
    by rewrite Hk.
Qed.

Lemma build_json_tree_represents_witness :
  represents Example.chain [] Example.chain_tree Example.C
  ∧ height Example.chain_tree ≤ 3.
Proof.
  apply (build_json_tree_represents Example.chain [] 3 Example.C).
  reflexivity.
Defined.

(** ** The label lookup *)

Section LookupFacts.
Context {K V : Type} `{EqDecision K}.
Implicit Types (k : K) (v : V) (d : list (K * V)).

Lemma dict_get_None_iff k d : dict_get k d = None ↔ k ∉ d.*1.
Proof.
  induction d as [|[k' v'] d IH]; cbn.
  - split; [intros _; apply not_elem_of_nil|done].
  - rewrite not_elem_of_cons. destruct (decide (k' = k)) as [->|Hne].
    + split; [done|]. by intros [? _].
    + rewrite IH. split; [by intros ?|by intros [_ ?]].
Qed.

Lemma dict_set_keys k v d :
  (dict_set k v d).*1 = if decide (k ∈ d.*1) then d.*1 else d.*1 ++ [k].
Proof.
  induction d as [|[k' v'] d IH]; cbn.
  - rewrite decide_False; [done|apply not_elem_of_nil].
  - destruct (decide (k' = k)) as [->|Hne]; cbn.
    + rewrite decide_True; [done|]. apply elem_of_cons. by left.
    + rewrite IH. destruct (decide (k ∈ d.*1)) as [Hin|Hnin].
      * rewrite decide_True; [done|]. apply elem_of_cons. by right.
      * rewrite decide_False; [done|].
        intros [->|?]%elem_of_cons; done.
Qed.

Lemma dict_set_NoDup k v d : NoDup d.*1 → NoDup (dict_set k v d).*1.
Proof.
  intros Hd. rewrite dict_set_keys. destruct (decide (k ∈ d.*1)); [done|].
  apply NoDup_app. split; [done|]. split; [|apply NoDup_singleton].
  intros x Hx ->%list_elem_of_singleton. done.
Qed.

(** With distinct keys, an entry is what [get] returns. *)
Lemma dict_get_elem_of k v d :
  NoDup d.*1 → (k, v) ∈ d ↔ dict_get k d = Some v.
Proof.
  intros Hd. split; [|apply dict_get_Some].
  induction d as [|[k' v'] d IH]; [by intros ?%elem_of_nil|].
  cbn in Hd. apply NoDup_cons in Hd as [Hk Hd]. cbn.
  intros [E|Hin]%elem_of_cons.
  - simplify_eq. by rewrite decide_True.
  - rewrite decide_False; [by apply IH|].
    intros ->. apply Hk, list_elem_of_fmap. by exists (k, v).
Qed.

End LookupFacts.

Section ResolvedLookup.
Context `{PyRuntime}.

Lemma labels_scan_NoDup g : NoDup (labels (scan g)).*1.
Proof.
  induction g as [|[[s p] o] g IH] using rev_ind; [constructor|].
  rewrite scan_snoc.
  destruct (scan_step_cases (scan g) s p o)
    as [(-> & ->)|[(-> & Ho & ->)|(Hn & _ & ->)]]; cbn; [|done..].
  by apply dict_set_NoDup.
Qed.

Lemma fill_NoDup lbls l : NoDup lbls.*1 → NoDup (foldl fill_step lbls l).*1.
Proof.
  revert lbls. induction l as [|x l IH]; intros lbls Hl; [done|].
  cbn. apply IH. unfold fill_step. destruct (dict_get x lbls); [done|].
  by apply dict_set_NoDup.
Qed.

Lemma resolved_labels_NoDup g : NoDup (resolved_labels g).*1.
Proof. apply fill_NoDup, labels_scan_NoDup. Qed.

(** The first entry whose label matches is the one returned. *)
Lemma get_uri_by_label_first lbls rl uri :
  get_uri_by_label lbls rl = Some uri →
  ∃ label before after,
    lbls = before ++ (uri, label) :: after ∧ lower label = lower rl
    ∧ Forall (fun e => lower e.2 ≠ lower rl) before.
Proof.
  induction lbls as [|[u l] lbls IH]; cbn; [done|].
  destruct (decide (lower l = lower rl)) as [Heq|Hne].
  - intros [= ->]. by exists l, [], lbls.
  - intros (l' & before & after & -> & Hl' & Hb)%IH.
    exists l', ((u, l) :: before), after. split; [done|]. split; [done|].
    by constructor.
Qed.

End ResolvedLookup.

(** X6. The label lookup has one entry per entity: its keys are pairwise
    distinct, an entry is what [get] returns, and an entity has an entry
    exactly when it has a label triple or is a known class. *)
Theorem label_lookup_one_entry `{PyRuntime} (g : graph) (u : term) :
  NoDup (resolved_labels g).*1
  ∧ (∀ l, (u, l) ∈ resolved_labels g
          ↔ dict_get u (resolved_labels g) = Some l)
  ∧ (is_Some (dict_get u (resolved_labels g))
     ↔ is_Some (explicit_label g u) ∨ known_class g u).
Proof.
  split; [apply resolved_labels_NoDup|]. split.
  - intros l. apply dict_get_elem_of, resolved_labels_NoDup.
  - rewrite resolved_get, <- all_classes_spec.
    destruct (explicit_label g u) as [e|].
    + split; [by left|by eexists].
    + destruct (decide (u ∈ all_classes (scan g))).
      * split; [by right|by eexists].
      * split; [by intros [? ?]|]. intros [[? ?]|?]; done.
Qed.

(** X7. With a non-empty root label, a conversion that succeeds returns
    exactly one tree; its root is the first entity of the label lookup
    whose resolved label equals the requested one up to case, and it
    carries the string and the resolved label of that entity. *)
Theorem explicit_root_first_match `{PyRuntime} (g : graph) (rl : string)
    (fuel : nat) (trees : list node) :
  Str.truthy rl = true →
  parse_ttl_to_json fuel g (Some rl) = Ok trees →
  ∃ u l kids before after,
    trees = [Node (str u) l kids]
    ∧ resolved_labels g = before ++ (u, l) :: after
    ∧ lower l = lower rl
    ∧ Forall (fun e => lower e.2 ≠ lower rl) before.
Proof.
  intros Hrl. unfold parse_ttl_to_json, resolve_roots. rewrite Hrl.
  destruct (get_uri_by_label (resolved_labels g) rl) as [u|] eqn:Hget;
    [|done].
  destruct (Str.truthy (str u)); [|done].
  destruct (mapM _ _) as [ts|] eqn:Hts; [|done]. intros [= <-].
  apply get_uri_by_label_first in Hget as (l & before & after & Hl & Heq & Hb).
  cbn in Hts. destruct fuel as [|fuel]; [done|]. cbn in Hts.
  destruct (mapM _ _) as [kids|]; [|done]. injection Hts as <-.
  exists u, l, kids, before, after. split; [|done].
  assert (dict_get u (resolved_labels g) = Some l) as ->; [|done].
  apply dict_get_elem_of; [apply resolved_labels_NoDup|].
  rewrite Hl. apply elem_of_app. right. apply elem_of_cons. by left.
Qed.

Section ClosedExplicitRoot.
#[local] Existing Instance ascii_runtime.

Lemma explicit_root_first_match_witness :
  ∃ kids, parse_ttl_to_json 3 Cases.homonyms (Some "bird")
          = Ok [Node (str Example.B) "Bird" kids].
Proof.
  destruct (explicit_root_first_match Cases.homonyms "bird" 3
              [Node (str Example.B) "Bird" [Node (str Example.A) "BIRD" []]])
    as (u & l & kids & _ & _ & Ht & _); [reflexivity..|].
  eexists. reflexivity.
Defined.
End ClosedExplicitRoot.

(** ** Cycles and hierarchies without a root *)

Section CycleFacts.

(** Below a term from which the subclass relation descends for ever, the
    builder exhausts every recursion bound. *)
Lemma build_json_tree_chain g lbls (chain : nat → term) :
  (∀ n, subclass_edge g (chain (S n)) (chain n)) →
  ∀ fuel k, build_json_tree fuel (children (scan g)) lbls (chain k) = None.
Proof.
  intros Hchain. induction fuel as [|fuel IH]; intros k; [done|].
  cbn [build_json_tree]. rewrite children_exact.
  assert (mapM (build_json_tree fuel (children (scan g)) lbls)
            (subclasses_of g (chain k)) = None) as ->; [|done].
  apply mapM_None_2, Exists_exists. exists (chain (S k)).
  split; [by apply elem_of_subclasses_of|apply IH].
Qed.

End CycleFacts.

(** X8. When the subclass relation descends for ever from one of the
    resolved roots, as it does from a class on a cycle, the conversion
    ends in [RecursionError] whatever the recursion bound, in preview
    and in commit mode, and nothing is asked of the database. *)
Theorem cyclic_hierarchy_recursion_error `{PyRuntime} (g : graph)
    (root_label : option string) (roots : list term) (chain : nat → term)
    (fuel : nat) (preview_only : bool) :
  (∀ n, subclass_edge g (chain (S n)) (chain n)) →
  resolve_roots g root_label = Ok roots →
  chain 0 ∈ roots →
  parse_ttl_to_json fuel g root_label = Raise RecursionError
  ∧ run_conversion fuel g root_label preview_only
    = (Raised RecursionError, []).
Proof.
  intros Hchain Hroots Hin.
  assert (Hp : parse_ttl_to_json fuel g root_label = Raise RecursionError).
  { unfold parse_ttl_to_json. rewrite Hroots.
    assert (mapM (build_json_tree fuel (children (scan g)) (resolved_labels g))
              roots = None) as ->; [|done].
    apply mapM_None_2, Exists_exists. exists (chain 0).
    split; [done|]. by apply build_json_tree_chain. }
  split; [done|]. unfold run_conversion. by rewrite Hp.
Qed.

Section ClosedCycle.
#[local] Existing Instance ascii_runtime.

Lemma cyclic_hierarchy_recursion_error_witness :
  run_conversion 1000 Cases.loop (Some "thing") false
  = (Raised RecursionError, []).
Proof.
  apply (cyclic_hierarchy_recursion_error Cases.loop (Some "thing")
           [Example.A] (fun _ => Example.A) 1000 false).
  - intros _. split; [|done]. apply elem_of_cons. by left.
  - reflexivity.
  - apply elem_of_cons. by left.
Defined.
End ClosedCycle.

(** X9. When every known class is marked "has a parent", in particular
    when the graph has no [subClassOf] triple with a URI object or its
    hierarchy is a cycle, a conversion without root label finds no root
    and raises nothing: the preview is the empty sequence, and a commit
    resets the database, uploads nothing and reports 0 nodes. *)
Theorem no_root_empty_forest `{PyRuntime} (g : graph) (fuel : nat) :
  (∀ c, known_class g c → has_parent g c) →
  implicit_roots g = []
  ∧ run_conversion fuel g None true = (Preview [], [])
  ∧ run_conversion fuel g None false = (Success 0, [Reset]).
Proof.
  intros Hall.
  assert (Hr : implicit_roots g = []).
  { apply elem_of_nil_inv. intros c [Hk Hp]%implicit_roots_spec.
    by apply Hp, Hall. }
  split; [done|].
  unfold run_conversion, parse_ttl_to_json, resolve_roots. rewrite Hr.
  by destruct fuel.
Qed.

Section ClosedNoRoot.
#[local] Existing Instance ascii_runtime.

Lemma no_root_empty_forest_witness :
  run_conversion 3 Cases.two_cycle None false = (Success 0, [Reset]).
Proof.
  apply (no_root_empty_forest Cases.two_cycle 3).
  intros c Hc%all_classes_spec. apply parents_spec.
  vm_compute in Hc. vm_compute.
  apply elem_of_cons in Hc as [->|Hc]; [apply elem_of_cons; by left|].
  apply elem_of_cons in Hc as [->|Hc]; [|by apply elem_of_nil in Hc].
  apply elem_of_cons. right. apply elem_of_cons. by left.
Defined.
End ClosedNoRoot.

(** X10. What a commit leaves in the database does not depend on what
    the database held before: after the requests of a successful commit
    the store is the one obtained from the empty store by the uploads of
    the trees. *)
Theorem commit_overwrites_store `{PyRuntime} (g : graph)
    (root_label : option string) (fuel n : nat) (evs : list event)
    (d : db) :
  run_conversion fuel g root_label false = (Success n, evs) →
  ∃ trees, parse_ttl_to_json fuel g root_label = Ok trees
    ∧ foldl run_event d evs
      = foldl (fun d tree => run_ops d (traverse_and_upload tree))
          empty_db trees.
Proof.
  unfold run_conversion.
  destruct (parse_ttl_to_json fuel g root_label) as [trees|e]; [|done].
  intros [= <- <-]. exists trees. split; [done|]. cbn [foldl run_event].
  unfold reset_database. generalize empty_db as d0.
  induction trees as [|t trees IH]; intros d0; [done|]. cbn. apply IH.
Qed.

Section ClosedCommit.
#[local] Existing Instance ascii_runtime.

Lemma commit_overwrites_store_witness :
  foldl run_event (Db [GNode ["Old"] (Some "x") None] [(0, 0)])
    (run_conversion 3 Example.animals None false).2
  = run_ops empty_db (traverse_and_upload Example.animals_tree).
Proof.
  destruct (commit_overwrites_store Example.animals None 3 3
              (run_conversion 3 Example.animals None false).2
              (Db [GNode ["Old"] (Some "x") None] [(0, 0)]))
    as (trees & Hp & ->); [reflexivity|].
  vm_compute in Hp. by injection Hp as <-.
Defined.
End ClosedCommit.

(** ** What a traversal sends *)

Section TraversalFacts.

Lemma merge_pairs_app a b : merge_pairs (a ++ b) = merge_pairs a ++ merge_pairs b.
Proof. apply omap_app. Qed.

Lemma merge_pairs_flat_map {A} (f : A → list op) l :
  merge_pairs (flat_map f l) = flat_map (fun x => merge_pairs (f x)) l.
Proof.
  induction l as [|x l IH]; [done|]. cbn. by rewrite merge_pairs_app, IH.
Qed.

Lemma upsert_names_app a b :
  upsert_names (a ++ b) = upsert_names a ++ upsert_names b.
Proof. apply omap_app. Qed.

Lemma upsert_names_flat_map {A} (f : A → list op) l :
  upsert_names (flat_map f l) = flat_map (fun x => upsert_names (f x)) l.
Proof.
  induction l as [|x l IH]; [done|]. cbn. by rewrite upsert_names_app, IH.
Qed.

(** The merges of a call: the edge to the caller's node, then the links
    of the subtree. *)
Lemma merge_pairs_recurse t : ∀ pid pl lvl,
  merge_pairs (recurse t pid pl lvl) =
    match pid with
    | Some p =>
        if Str.truthy p && Str.truthy (node_id t) then [(p, node_id t)] else []
    | None => []
    end ++ tree_edges t.
Proof.
  induction t as [i l kids IH] using node_ind. intros pid pl lvl.
  rewrite recurse_eq. cbn zeta. cbn [tree_edges node_id].
  destruct (Str.truthy i) eqn:Hi.
  - cbn [merge_pairs omap list_omap]. change (omap _ ?x) with (merge_pairs x).
    rewrite merge_pairs_app, merge_pairs_flat_map. f_equal.
    + destruct pid as [p|]; [|done]. by destruct (Str.truthy p).
    + apply flat_map_Forall_ext. eapply Forall_impl; [exact IH|].
      intros c Hc. cbn beta. rewrite Hc. by rewrite Hi.
  - destruct pid as [p|]; [|done]. by rewrite andb_false_r.
Qed.

Lemma upsert_names_recurse t : ∀ pid pl lvl,
  upsert_names (recurse t pid pl lvl) = preorder_names t.
Proof.
  induction t as [i l kids IH] using node_ind. intros pid pl lvl.
  rewrite recurse_eq. cbn zeta. cbn [preorder_names].
  destruct (Str.truthy i); [|done].
  cbn [upsert_names omap list_omap]. change (omap _ ?x) with (upsert_names x).
  rewrite upsert_names_app, upsert_names_flat_map. f_equal.
  assert (upsert_names
            match pid with
            | Some p => if Str.truthy p then [MergeEdge p i] else []
            | None => []
            end = []) as ->.
  { destruct pid as [p|]; [destruct (Str.truthy p)|]; done. }
  apply flat_map_Forall_ext. eapply Forall_impl; [exact IH|].
  intros c Hc. apply Hc.
Qed.

Lemma length_flat_map_ext {A B C} (f : A → list B) (h : A → list C) l :
  Forall (fun x => length (f x) = length (h x)) l →
  length (flat_map f l) = length (flat_map h l).
Proof.
  induction 1 as [|x l Hx _ IH]; [done|]. cbn. rewrite !length_app. lia.
Qed.

(** One link for every node reached but the root. *)
Lemma length_preorder_names t :
  length (preorder_names t)
  = (if Str.truthy (node_id t) then 1 else 0) + length (tree_edges t).
Proof.
  induction t as [i l kids IH] using node_ind.
  cbn [preorder_names tree_edges node_id]. destruct (Str.truthy i); [|done].
  cbn [length]. f_equal. cbn. apply length_flat_map_ext.
  eapply Forall_impl; [exact IH|]. intros c Hc. cbn beta.
  rewrite Hc, length_app. by destruct (Str.truthy (node_id c)).
Qed.

(** Every type tag of a call is a valid identifier, given that the tag
    inherited below depth 1 is one. *)
Lemma recurse_tags_valid t : ∀ pid pl lvl,
  (1 < lvl → ∃ tg, pl = Some tg ∧ valid_ident tg = true) →
  Forall (fun it => valid_ident it.2 = true)
    (upsert_tags (recurse t pid pl lvl)).
Proof.
  induction t as [i l kids IH] using node_ind. intros pid pl lvl Hpl.
  rewrite recurse_eq. cbn zeta. destruct (Str.truthy i); [|constructor].
  set (assigned := if lvl <=? 1 then _ else _).
  assert (Hassigned : ∃ tg, assigned = Some tg ∧ valid_ident tg = true).
  { subst assigned. destruct (Nat.leb_spec lvl 1) as [Hle|Hgt].
    - eexists. split; [done|]. apply sanitize_label_valid.
    - by apply Hpl. }
  destruct Hassigned as (tg & Htg & Hvalid). rewrite Htg.
  cbn [upsert_tags omap list_omap]. change (omap _ ?x) with (upsert_tags x).
  rewrite upsert_tags_app, upsert_tags_edge, upsert_tags_flat_map. cbn [app].
  constructor; [done|].
  clear Hpl. induction kids as [|c kids IHk]; [constructor|].
  apply Forall_cons in IH as [IHc IH]. cbn. apply Forall_app. split.
  - apply IHc. intros _. by exists tg.
  - by apply IHk.
Qed.

Lemma recurse_count_le t : ∀ pid pl lvl,
  length (upsert_tags (recurse t pid pl lvl)) ≤ count_nodes t.
Proof.
  induction t as [i l kids IH] using node_ind. intros pid pl lvl.
  rewrite recurse_eq, count_nodes_eq. cbn zeta.
  destruct (Str.truthy i); [|cbn; lia].
  cbn [upsert_tags omap list_omap]. change (omap _ ?x) with (upsert_tags x).
  rewrite upsert_tags_app, upsert_tags_edge, upsert_tags_flat_map.
  cbn [app length]. apply le_n_S.
  generalize (if lvl <=? 1 then Some (sanitize_label l) else pl) as tg.
  intros tg. induction kids as [|c kids IHk]; [done|].
  apply Forall_cons in IH as [IHc IH]. cbn. rewrite length_app.
  specialize (IHc (Some i) tg (S lvl)). specialize (IHk IH). lia.
Qed.

Lemma recurse_count_eq_inv t : ∀ pid pl lvl,
  length (upsert_tags (recurse t pid pl lvl)) = count_nodes t →
  ids_nonempty t = true.
Proof.
  induction t as [i l kids IH] using node_ind. intros pid pl lvl.
  rewrite recurse_eq, count_nodes_eq. cbn zeta. cbn [ids_nonempty].
  destruct (Str.truthy i); [|cbn; lia].
  cbn [upsert_tags omap list_omap]. change (omap _ ?x) with (upsert_tags x).
  rewrite upsert_tags_app, upsert_tags_edge, upsert_tags_flat_map.
  cbn [app length andb]. intros [= Hlen]. revert Hlen.
  generalize (if lvl <=? 1 then Some (sanitize_label l) else pl) as tg.
  intros tg. induction kids as [|c kids IHk]; [done|].
  apply Forall_cons in IH as [IHc IH]. cbn. rewrite length_app.
  intros Hlen.
  pose proof (recurse_count_le c (Some i) tg (S lvl)) as Hc.
  assert (Hrest : length (flat_map
                            (fun x => upsert_tags (recurse x (Some i) tg (S lvl)))
                            kids) ≤ sum_list (count_nodes <$> kids)).
  { clear. induction kids as [|k kids IHk]; [done|]. cbn.
    rewrite length_app. pose proof (recurse_count_le k (Some i) tg (S lvl)).
    lia. }
  rewrite (IHc (Some i) tg (S lvl)) by lia. cbn. apply IHk; [done|lia].
Qed.

End TraversalFacts.

(** X11. The merges a traversal sends are, in order, the links of the
    tree between the nodes it reaches, each as (id of the parent, id of
    the child); with an id on the root there is one merge less than
    there are upserts, the root having no edge of its own. *)
Theorem merges_are_tree_links (root : node) :
  merge_pairs (traverse_and_upload root) = tree_edges root
  ∧ (Str.truthy (node_id root) = true →
     length (upsert_tags (traverse_and_upload root))
     = S (length (merge_pairs (traverse_and_upload root)))).
Proof.
  unfold traverse_and_upload. rewrite merge_pairs_recurse. split; [done|].
  intros Hroot. cbn [app].
  assert (Hlen : length (upsert_tags (recurse root None None 0))
                 = length (upsert_names (recurse root None None 0))).
  { generalize (recurse root None None 0) as ops.
    induction ops as [|o ops IH]; [done|]. destruct o; cbn; [|done].
    by f_equal. }
  rewrite Hlen, upsert_names_recurse, length_preorder_names. by rewrite Hroot.
Qed.

Lemma merges_are_tree_links_witness :
  length (upsert_tags (traverse_and_upload Example.diamond_tree))
  = S (length (merge_pairs (traverse_and_upload Example.diamond_tree))).
Proof.
  destruct (merges_are_tree_links Example.diamond_tree) as [_ H].
  apply H. reflexivity.
Defined.

(** X12. Every upsert of a traversal carries the id of its node and, as
    name, the raw label of that node, not the sanitized one; and every
    type tag that a traversal puts into a Cypher statement is a valid
    identifier: not empty, made of [[A-Za-z0-9_]], not starting with a
    digit, whatever the labels of the tree are. *)
Theorem upserts_names_and_tags (root : node) :
  upsert_names (traverse_and_upload root) = preorder_names root
  ∧ Forall (fun it => valid_ident it.2 = true)
      (upsert_tags (traverse_and_upload root)).
Proof.
  split; [apply upsert_names_recurse|].
  apply recurse_tags_valid. cbn. lia.
Qed.

(** X13. The count that [count_nodes] gives is never below the number of
    upserts of the traversal, and the two agree exactly when every node
    of the tree carries a non-empty id: a node without id is counted but
    not uploaded, with everything below it. *)
Theorem count_nodes_bounds_upserts (root : node) :
  length (upsert_tags (traverse_and_upload root)) ≤ count_nodes root
  ∧ (length (upsert_tags (traverse_and_upload root)) = count_nodes root
     ↔ ids_nonempty root = true).
Proof.
  split; [apply recurse_count_le|]. split.
  - apply recurse_count_eq_inv.
  - intros Hids. by apply recurse_count.
Qed.

Section TagGroups.

Lemma type_tag_from_one root p d :
  1 ≤ d → type_tag root p d = type_tag root p 1.
Proof.
  induction d as [|[|d] IH]; intros Hd; [lia|done|].
  rewrite type_tag_deeper. apply IH. lia.
Qed.

End TagGroups.

(** X14. Below the root, a node gets as type tag the sanitized label of
    its ancestor at depth 1 (itself at depth 1): all the nodes under one
    child of the root share one tag. *)
Theorem subtree_shares_tag (root : node) (p : path) :
  p ∈ visit_paths root → 1 ≤ length p →
  (∃ c, subtree_at root (take 1 p) = Some c
        ∧ assigned_tag root p = Some (sanitize_label (node_label c)))
  ∧ (∀ q, q ∈ visit_paths root → 1 ≤ length q → take 1 q = take 1 p →
          assigned_tag root q = assigned_tag root p).
Proof.
  intros Hp Hlen.
  assert (Hone : ∀ q, q ∈ visit_paths root → 1 ≤ length q →
            assigned_tag root q
            = sanitize_label ∘ node_label <$> subtree_at root (take 1 q)).
  { intros q Hq Hl. destruct (assigned_tag_type_tag root q Hq) as (tg & -> & <-).
    by rewrite (type_tag_from_one root q (length q) Hl). }
  split.
  - pose proof (Hone p Hp Hlen) as Hc.
    destruct (assigned_tag_type_tag root p Hp) as (tg & Htg & _).
    rewrite Htg in Hc.
    destruct (subtree_at root (take 1 p)) as [c|]; [|done].
    exists c. split; [done|]. by rewrite Htg, Hc.
  - intros q Hq Hl Htake. by rewrite (Hone q Hq Hl), (Hone p Hp Hlen), Htake.
Qed.

Lemma subtree_shares_tag_witness :
  assigned_tag Example.animals_tree [0; 0]
  = assigned_tag Example.animals_tree [0].
Proof.
  destruct (subtree_shares_tag Example.animals_tree [0]) as [_ H];
    [by vm_compute; set_solver|cbn; lia|].
  apply H; [by vm_compute; set_solver|cbn; lia|reflexivity].
Defined.

(** ** The two statements on the store *)

Section StatementFacts.
Implicit Types (ns : list gnode) (es : list (nat * nat)).

Lemma elem_of_find_ids i k ns a :
  a ∈ find_ids i k ns ↔
    ∃ n, k ≤ a ∧ ns !! (a - k) = Some n ∧ n_id n = Some i.
Proof.
  revert k. induction ns as [|n r IH]; intros k.
  - cbn. split; [by intros ?%elem_of_nil|]. by intros (n & _ & Hl & _).
  - cbn [find_ids].
    transitivity ((a = k ∧ n_id n = Some i) ∨ a ∈ find_ids i (S k) r).
    { destruct (decide (n_id n = Some i)); rewrite ?elem_of_cons; tauto. }
    rewrite IH. split.
    + intros [[-> Hn]|(n' & Hle & Hl & Hn')].
      * exists n. by rewrite Nat.sub_diag.
      * exists n'. split; [lia|]. split; [|done].
        by replace (a - k) with (S (a - S k)) by lia.
    + intros (n' & Hle & Hl & Hn'). destruct (decide (a = k)) as [->|Hne].
      * left. rewrite Nat.sub_diag in Hl. cbn in Hl. by simplify_eq.
      * right. exists n'. split; [lia|]. split; [|done].
        by replace (a - k) with (S (a - S k)) in Hl by lia.
Qed.

Lemma elem_of_find_ids_0 i d a : a ∈ find_ids i 0 (nodes d) ↔ id_at d a i.
Proof.
  rewrite elem_of_find_ids. unfold id_at. rewrite Nat.sub_0_r.
  split; [intros (n & _ & ? & ?); eauto|intros (n & ? & ?); exists n].
  split; [lia|done].
Qed.

Lemma has_id_find_ids i d : has_id i d ↔ find_ids i 0 (nodes d) ≠ [].
Proof.
  split.
  - intros (n & Hn & Hid) Hnil.
    apply list_elem_of_lookup in Hn as [k Hk].
    assert (k ∈ find_ids i 0 (nodes d)) as Hin
      by (apply elem_of_find_ids_0; by exists n).
    rewrite Hnil in Hin. by apply elem_of_nil in Hin.
  - destruct (find_ids i 0 (nodes d)) as [|a l] eqn:Hf; [done|]. intros _.
    assert (a ∈ find_ids i 0 (nodes d)) as (n & Hn & Hid)%elem_of_find_ids_0
      by (rewrite Hf; apply elem_of_cons; by left).
    exists n. split; [|done]. apply list_elem_of_lookup. eauto.
Qed.

Lemma foldl_merge_rel_inv rows es e :
  e ∈ foldl merge_rel es rows → e ∈ es ∨ ∃ a b, (a, b) ∈ rows ∧ e = (b, a).
Proof.
  revert es. induction rows as [|[a b] rows IH]; intros es; [by left|].
  cbn [foldl]. intros [Hin|(a' & b' & Hin & ->)]%IH.
  - cbn in Hin. destruct (decide ((b, a) ∈ es)); [by left|].
    apply elem_of_app in Hin as [?|Hs%list_elem_of_singleton]; [by left|].
    subst e. right. exists a, b. split; [|done]. apply elem_of_cons. by left.
  - right. exists a', b'. split; [|done]. apply elem_of_cons. by right.
Qed.

Lemma touch_touch tg i l l' n : touch tg i l' (touch tg i l n) = touch tg i l' n.
Proof.
  unfold touch. destruct (matches tg i n) eqn:Hm; [|by rewrite Hm].
  assert (matches tg i (set_name l n) = true) as -> by exact Hm.
  done.
Qed.

Lemma touch_unmatched tg i l ns :
  existsb (matches tg i) ns = false → touch tg i l <$> ns = ns.
Proof.
  intros Hex. apply fmap_fixed. intros n Hn. unfold touch.
  by rewrite (existsb_false _ _ _ Hex Hn).
Qed.

Lemma existsb_app_new tg i l ns :
  existsb (matches tg i) (ns ++ [new_node i l tg]) = true.
Proof.
  apply existsb_elem_of. exists (new_node i l tg). split.
  - apply elem_of_app. right. by apply list_elem_of_singleton.
  - apply matches_spec. split; [|done]. by apply list_elem_of_singleton.
Qed.

Lemma matches_new_node tg i l : matches tg i (new_node i l tg) = true.
Proof. apply matches_spec. split; [|done]. by apply list_elem_of_singleton. Qed.

Lemma existsb_upload_node d i l tg :
  existsb (matches tg i) (nodes (upload_node d i l tg)) = true.
Proof.
  rewrite upload_node_nodes.
  destruct (existsb (matches tg i) (nodes d)) eqn:Hex.
  - apply existsb_elem_of in Hex as (n & Hn & Hm). apply existsb_elem_of.
    exists (touch tg i l n). rewrite matches_touch. split; [|done].
    apply list_elem_of_fmap. eauto.
  - apply existsb_app_new.
Qed.

End StatementFacts.

(** X15. [upload_node] leaves the edges alone and every node in its
    place, with its labels and its id; it sets the name of the nodes
    that carry the type tag and the id, and of no other node; when no
    node carries both it adds one node, with that tag as only label, and
    otherwise it adds none.  Afterwards a node with the tag and the id
    exists, and every such node has the given name. *)
Theorem upload_node_effect (d : db) (i l tg : string) :
  edges (upload_node d i l tg) = edges d
  ∧ (∀ k n, nodes d !! k = Some n →
       nodes (upload_node d i l tg) !! k = Some (touch tg i l n))
  ∧ nodes (upload_node d i l tg)
    = (touch tg i l <$> nodes d)
      ++ (if existsb (matches tg i) (nodes d) then [] else [new_node i l tg])
  ∧ existsb (matches tg i) (nodes (upload_node d i l tg)) = true
  ∧ (∀ n, n ∈ nodes (upload_node d i l tg) → matches tg i n = true →
       n_name n = Some l).
Proof.
  assert (Hnodes : nodes (upload_node d i l tg)
            = (touch tg i l <$> nodes d)
              ++ (if existsb (matches tg i) (nodes d) then []
                  else [new_node i l tg])).
  { rewrite upload_node_nodes. destruct (existsb _ _) eqn:Hex.
    - by rewrite app_nil_r.
    - by rewrite (touch_unmatched _ _ _ _ Hex). }
  split; [apply upload_node_edges|]. split; [|split; [done|split]].
  - intros k n Hk. rewrite Hnodes. apply lookup_app_l_Some.
    by rewrite list_lookup_fmap, Hk.
  - apply existsb_upload_node.
  - intros n. rewrite Hnodes.
    intros [(n0 & -> & Hn0)%list_elem_of_fmap|Hnew]%elem_of_app.
    + rewrite matches_touch. unfold touch. by intros ->.
    + destruct (existsb _ _); [by apply elem_of_nil in Hnew|].
      by apply list_elem_of_singleton in Hnew as ->.
Qed.

Lemma upload_node_effect_witness :
  existsb (matches "Animal" "c") (nodes (upload_node empty_db "c" "Cat" "Animal"))
  = true.
Proof. apply (upload_node_effect empty_db "c" "Cat" "Animal"). Defined.

(** X16. Of two upserts in a row with the same type tag and the same id
    the second decides the name, and no second node appears; an upsert
    repeated with the same name changes nothing. *)
Theorem upload_node_last_write_wins (d : db) (i l l' tg : string) :
  upload_node (upload_node d i l tg) i l' tg = upload_node d i l' tg
  ∧ upload_node (upload_node d i l tg) i l tg = upload_node d i l tg.
Proof.
  assert (Hgen : ∀ l2, upload_node (upload_node d i l tg) i l2 tg
                       = upload_node d i l2 tg).
  { intros l2. apply db_eq; [|by rewrite !upload_node_edges].
    rewrite (upload_node_nodes (upload_node d i l tg)).
    rewrite existsb_upload_node.
    rewrite !upload_node_nodes. destruct (existsb _ _) eqn:Hex.
    - rewrite <- list_fmap_compose. apply list_fmap_ext.
      intros k n _. apply touch_touch.
    - rewrite fmap_app, (touch_unmatched _ _ _ _ Hex). f_equal.
      change (GNode [tg] (Some i) (Some l)) with (new_node i l tg).
      cbn. unfold touch. by rewrite matches_new_node. }
  split; apply Hgen.
Qed.

(** X17. [create_relationship] leaves the nodes alone and removes no
    edge; afterwards the edges are the old ones and, from every node
    with the child id to every node with the parent id, one edge; run a
    second time it changes nothing; and when no node carries the parent
    id, or none the child id, it changes nothing at all. *)
Theorem create_relationship_effect (d : db) (p c : string) :
  nodes (create_relationship d p c) = nodes d
  ∧ (∀ b a, (b, a) ∈ edges (create_relationship d p c)
            ↔ (b, a) ∈ edges d ∨ (id_at d b c ∧ id_at d a p))
  ∧ create_relationship (create_relationship d p c) p c
    = create_relationship d p c
  ∧ (¬ has_id p d ∨ ¬ has_id c d → create_relationship d p c = d).
Proof.
  split; [done|]. split; [|split].
  - intros b a. cbn. split.
    + intros [?|(a' & b' & [Ha Hb]%elem_of_rows & [= -> ->])]%foldl_merge_rel_inv;
        [by left|].
      right. by rewrite <- !elem_of_find_ids_0.
    + intros [?|[Hb Ha]]; [by apply foldl_merge_rel_incl|].
      apply foldl_merge_rel_rows, elem_of_rows.
      by rewrite !elem_of_find_ids_0.
  - apply create_relationship_noop, create_relationship_complete.
  - intros Hmiss. apply create_relationship_noop. intros a b Ha Hb.
    destruct Hmiss as [Hp|Hc]; [destruct Hp|destruct Hc];
      apply has_id_find_ids; intros Hnil;
      [rewrite Hnil in Ha; by apply elem_of_nil in Ha
      |rewrite Hnil in Hb; by apply elem_of_nil in Hb].
Qed.

Lemma create_relationship_effect_witness :
  create_relationship (upload_node empty_db "c" "Cat" "Animal") "p" "c"
  = upload_node empty_db "c" "Cat" "Animal".
Proof.
  apply (create_relationship_effect
           (upload_node empty_db "c" "Cat" "Animal") "p" "c").
  left. intros (n & Hn & Hid). vm_compute in Hn.
  apply list_elem_of_singleton in Hn as ->. discriminate.
Defined.

(** ** What no transaction undoes *)

Section MonotoneFacts.
Implicit Types (ns : list gnode) (ops : list op).

(** The nodes there before stay in place; new ones come after them. *)
Lemma run_op_nodes_prefix ops : ∀ ns,
  ∃ extra, foldl run_op_nodes ns ops = (touch_ops ops <$> ns) ++ extra.
Proof.
  induction ops as [|o ops IH]; intros ns.
  { exists []. cbn. by rewrite list_fmap_id, app_nil_r. }
  cbn [foldl].
  assert (Hstep : ∃ e1, run_op_nodes ns o = ((fun n => touch_op n o) <$> ns) ++ e1).
  { destruct o as [i l tg|p c]; cbn.
    - destruct (existsb (matches tg i) ns) eqn:Hex.
      + exists []. by rewrite app_nil_r.
      + eexists. by rewrite (touch_unmatched _ _ _ _ Hex).
    - exists []. by rewrite list_fmap_id, app_nil_r. }
  destruct Hstep as [e1 ->]. destruct (IH (((fun n => touch_op n o) <$> ns) ++ e1))
    as [extra ->].
  exists ((touch_ops ops <$> e1) ++ extra).
  rewrite fmap_app, <- list_fmap_compose, <- (assoc (++)). done.
Qed.

Lemma edges_run_ops_incl d ops e : e ∈ edges d → e ∈ edges (run_ops d ops).
Proof.
  revert d. induction ops as [|o ops IH]; intros d He; [done|].
  cbn. by apply IH, edges_run_op_incl.
Qed.

Lemma length_run_op_nodes ns o : length ns ≤ length (run_op_nodes ns o).
Proof.
  destruct o as [i l tg|]; cbn; [|done].
  destruct (existsb _ _); [by rewrite length_fmap|rewrite length_app; lia].
Qed.

Lemma edges_in_range_run_op d o :
  edges_in_range d → edges_in_range (run_op d o).
Proof.
  intros Hd b a. rewrite nodes_run_op.
  pose proof (length_run_op_nodes (nodes d) o) as Hlen.
  destruct o as [i l tg|p c].
  - cbn [run_op]. rewrite upload_node_edges. intros [? ?]%Hd. lia.
  - cbn. intros [Hin|(a' & b' & [Ha Hb]%elem_of_rows & [= -> ->])]%foldl_merge_rel_inv.
    + by apply Hd.
    + apply elem_of_find_ids_0 in Ha as (n & Hn & _).
      apply elem_of_find_ids_0 in Hb as (m & Hm & _).
      apply lookup_lt_Some in Hn, Hm. done.
Qed.

Lemma NoDup_edges_run_op d o : NoDup (edges d) → NoDup (edges (run_op d o)).
Proof.
  destruct o as [i l tg|p c]; cbn; [by rewrite upload_node_edges|].
  apply foldl_merge_rel_NoDup.
Qed.

End MonotoneFacts.

(** X18. No transaction of upserts and merges takes anything away: every
    node stays at its place, with its labels and its id, its name being
    what the upserts that match it make of it; every edge stays; and a
    store whose edges lie between its nodes and are pairwise distinct is
    again such a store afterwards. *)
Theorem store_never_shrinks (d : db) (ops : list op) :
  (∀ k n, nodes d !! k = Some n →
     nodes (run_ops d ops) !! k = Some (touch_ops ops n)
     ∧ n_labels (touch_ops ops n) = n_labels n
     ∧ n_id (touch_ops ops n) = n_id n)
  ∧ (∀ e, e ∈ edges d → e ∈ edges (run_ops d ops))
  ∧ (edges_in_range d → edges_in_range (run_ops d ops))
  ∧ (NoDup (edges d) → NoDup (edges (run_ops d ops))).
Proof.
  split; [|split; [|split]].
  - intros k n Hk. rewrite touch_ops_labels, touch_ops_id.
    split; [|done]. rewrite nodes_run_ops.
    destruct (run_op_nodes_prefix ops (nodes d)) as [extra ->].
    apply lookup_app_l_Some. by rewrite list_lookup_fmap, Hk.
  - intros e. apply edges_run_ops_incl.
  - revert d. induction ops as [|o ops IH]; intros d Hd; [done|].
    cbn. by apply IH, edges_in_range_run_op.
  - revert d. induction ops as [|o ops IH]; intros d Hd; [done|].
    cbn. by apply IH, NoDup_edges_run_op.
Qed.

Lemma store_never_shrinks_witness :
  NoDup (edges (run_ops empty_db (traverse_and_upload Example.diamond_tree))).
Proof.
  apply (store_never_shrinks empty_db
           (traverse_and_upload Example.diamond_tree)).
  constructor.
Defined.

(** ** The store after a reset *)

Section KeyFacts.
Implicit Types (ns : list gnode) (ops : list op).

Lemma node_key_touch tg i l n : node_key (touch tg i l n) = node_key n.
Proof. unfold node_key. by rewrite touch_labels, touch_id. Qed.

Lemma matches_new_node_inv tg i i' l' tg' :
  matches tg i (new_node i' l' tg') = true → i' = i ∧ tg' = tg.
Proof.
  intros [Htg Hid]%matches_spec. cbn in *.
  apply list_elem_of_singleton in Htg. by simplify_eq.
Qed.

(** From the empty store on, every node is one that an upsert made, with
    the name of a later upsert of the same tag and id, and no two nodes
    have the same tag and id. *)
Lemma run_op_nodes_keyed ops :
  Forall (fun n => ∃ i l tg, n = new_node i l tg ∧ Upsert i l tg ∈ ops)
    (foldl run_op_nodes [] ops)
  ∧ NoDup (node_key <$> foldl run_op_nodes [] ops).
Proof.
  induction ops as [|o ops [IHf IHk]] using rev_ind.
  { split; constructor. }
  rewrite foldl_app. cbn [foldl].
  set (ns := foldl run_op_nodes [] ops) in *.
  assert (Hmono : Forall (fun n => ∃ i l tg, n = new_node i l tg
                                   ∧ Upsert i l tg ∈ ops ++ [o]) ns).
  { eapply Forall_impl; [exact IHf|]. intros n (i & l & tg & -> & Hin).
    exists i, l, tg. split; [done|]. apply elem_of_app. by left. }
  destruct o as [i l tg|p c]; cbn [run_op_nodes]; [|done].
  assert (Hlast : Upsert i l tg ∈ ops ++ [Upsert i l tg])
    by (apply elem_of_app; right; by apply list_elem_of_singleton).
  destruct (existsb (matches tg i) ns) eqn:Hex.
  - split.
    + apply Forall_fmap. eapply Forall_impl; [exact Hmono|].
      intros n (i' & l' & tg' & -> & Hin). cbn. unfold touch.
      destruct (matches tg i (new_node i' l' tg')) eqn:Hm; [|eauto].
      apply matches_new_node_inv in Hm as [-> ->]. by exists i, l, tg.
    + rewrite <- list_fmap_compose.
      erewrite list_fmap_ext; [exact IHk|].
      intros k n _. apply node_key_touch.
  - split.
    + apply Forall_app. split; [done|]. constructor; [|constructor].
      by exists i, l, tg.
    + rewrite fmap_app. apply NoDup_app. split; [done|].
      split; [|apply NoDup_singleton].
      intros key (n & -> & Hn)%list_elem_of_fmap Hkey%list_elem_of_singleton.
      pose proof (existsb_false _ _ _ Hex Hn) as Hm.
      destruct (proj1 (Forall_forall _ _) IHf n Hn) as (i' & l' & tg' & -> & _).
      injection Hkey as -> ->. by rewrite matches_new_node in Hm.
Qed.

End KeyFacts.

(** X19. In a store filled from empty, every node has one label and an
    id and a name, all three from an upsert that was sent; no two nodes
    carry the same type tag and id; and every pair of tag and id that
    was upserted has its node. *)
Theorem uploaded_nodes_keyed (ops : list op) :
  (∀ n, n ∈ nodes (run_ops empty_db ops) →
     ∃ i l tg, n = new_node i l tg ∧ Upsert i l tg ∈ ops)
  ∧ NoDup (node_key <$> nodes (run_ops empty_db ops))
  ∧ (∀ i tg, (i, tg) ∈ upsert_tags ops →
       ∃ l, new_node i l tg ∈ nodes (run_ops empty_db ops)).
Proof.
  rewrite nodes_run_ops. cbn [nodes empty_db].
  destruct (run_op_nodes_keyed ops) as [Hf Hk].
  split; [by apply Forall_forall|]. split; [done|].
  intros i tg ([i' l' tg'|] & Hin & [= -> ->])%list_elem_of_omap.
  pose proof (existsb_after_upsert i l' tg [] ops Hin)
    as (n & Hn & Hm)%existsb_elem_of.
  destruct (proj1 (Forall_forall _ _) Hf n Hn) as (i2 & l2 & tg2 & -> & _).
  apply matches_new_node_inv in Hm as [-> ->]. by exists l2.
Qed.

(** ** Uploading a tree whose ids are pairwise distinct *)

Section DistinctIds.
Implicit Types (ns : list gnode) (ops pre : list op).

Lemma upserts_app a b : upserts (a ++ b) = upserts a ++ upserts b.
Proof. apply omap_app. Qed.

Lemma upsert_ids_app a b : upsert_ids (a ++ b) = upsert_ids a ++ upsert_ids b.
Proof. unfold upsert_ids. by rewrite upsert_tags_app, fmap_app. Qed.

Lemma upsert_ids_upserts ops :
  upsert_ids ops = (fun u => u.1.1) <$> upserts ops.
Proof.
  induction ops as [|[i l tg|p c] ops IH]; [done| |done].
  change (upsert_ids (Upsert i l tg :: ops)) with (i :: upsert_ids ops).
  by rewrite IH.
Qed.

Lemma upsert_names_upserts ops : upsert_names ops = fst <$> upserts ops.
Proof.
  induction ops as [|[i l tg|p c] ops IH]; [done| |done].
  change (upsert_names (Upsert i l tg :: ops))
    with ((i, l) :: upsert_names ops).
  by rewrite IH.
Qed.

Lemma elem_of_upsert_ids i l tg ops : Upsert i l tg ∈ ops → i ∈ upsert_ids ops.
Proof.
  intros Hin. unfold upsert_ids. apply list_elem_of_fmap. exists (i, tg).
  split; [done|]. apply list_elem_of_omap. by exists (Upsert i l tg).
Qed.

Lemma elem_of_merge_pairs p c ops :
  (p, c) ∈ merge_pairs ops ↔ MergeEdge p c ∈ ops.
Proof.
  unfold merge_pairs. rewrite list_elem_of_omap. split.
  - intros ([i l tg|p' c'] & Hin & [= -> ->]). done.
  - intros Hin. by exists (MergeEdge p c).
Qed.

Lemma mk_nodes_ids ops :
  n_id <$> (mk_node <$> upserts ops) = Some <$> upsert_ids ops.
Proof.
  rewrite upsert_ids_upserts, <- !list_fmap_compose. done.
Qed.

Lemma find_ids_nil i k ns : Some i ∉ n_id <$> ns → find_ids i k ns = [].
Proof.
  revert k. induction ns as [|n ns IH]; intros k Hnin; [done|].
  cbn in *. apply not_elem_of_cons in Hnin as [Hn Hnin].
  rewrite decide_False by done. by apply IH.
Qed.

(** With pairwise distinct ids, one node at most carries an id. *)
Lemma find_ids_unique i k ns :
  NoDup (n_id <$> ns) → Some i ∈ n_id <$> ns → ∃ a, find_ids i k ns = [a].
Proof.
  revert k. induction ns as [|n ns IH]; intros k Hnd Hin.
  { by apply elem_of_nil in Hin. }
  cbn in *. apply NoDup_cons in Hnd as [Hn Hnd].
  destruct (decide (n_id n = Some i)) as [Heq|Hne].
  - exists k. rewrite find_ids_nil; [done|]. by rewrite <- Heq.
  - apply elem_of_cons in Hin as [?|Hin]; [done|]. by apply IH.
Qed.

Lemma elem_of_create_relationship d p c b a :
  (b, a) ∈ edges (create_relationship d p c)
  ↔ (b, a) ∈ edges d ∨ (id_at d b c ∧ id_at d a p).
Proof.
  cbn. split.
  - intros [?|(a' & b' & [Ha Hb]%elem_of_rows & [= -> ->])]%foldl_merge_rel_inv;
      [by left|].
    right. by rewrite <- !elem_of_find_ids_0.
  - intros [?|[Hb Ha]]; [by apply foldl_merge_rel_incl|].
    apply foldl_merge_rel_rows, elem_of_rows.
    by rewrite !elem_of_find_ids_0.
Qed.

Lemma id_at_unique d k i j : id_at d k i → id_at d k j → i = j.
Proof. intros (n & Hn & Hi) (m & Hm & Hj). congruence. Qed.

(** The store after each prefix of a transaction that upserts no id
    twice and merges right after the upsert of the child. *)
Lemma distinct_prefix ops :
  NoDup (upsert_ids ops) → edge_ok None ops →
  ∀ pre post, ops = pre ++ post →
    nodes (run_ops empty_db pre) = mk_node <$> upserts pre
    ∧ NoDup (edges (run_ops empty_db pre))
    ∧ length (edges (run_ops empty_db pre)) = length (merge_pairs pre)
    ∧ ∀ b a, (b, a) ∈ edges (run_ops empty_db pre)
        ↔ ∃ p c, (p, c) ∈ merge_pairs pre
            ∧ id_at (run_ops empty_db pre) b c
            ∧ id_at (run_ops empty_db pre) a p.
Proof.
  intros Hnd Hok pre. induction pre as [|o pre IH] using rev_ind;
    intros post Hops.
  { cbn. split; [done|]. split; [constructor|]. split; [done|].
    intros b a. split; [by intros ?%elem_of_nil|].
    by intros (p & c & ?%elem_of_nil & _). }
  rewrite <- (assoc (++)) in Hops. cbn in Hops.
  destruct (IH _ Hops) as (HN & HE1 & HE2 & HE3). clear IH.
  rewrite run_ops_app. cbn [run_ops foldl]. fold (run_ops empty_db pre).
  set (d := run_ops empty_db pre) in *.
  assert (Hpre_nd : NoDup (upsert_ids (pre ++ [o]))).
  { rewrite Hops, (cons_middle o), (assoc (++)), upsert_ids_app in Hnd.
    by apply NoDup_app in Hnd as [? _]. }
  assert (Hends : ∀ p c, MergeEdge p c ∈ pre →
            p ∈ upsert_ids pre ∧ c ∈ upsert_ids pre).
  { intros p c (x & y & Hxy)%list_elem_of_split.
    destruct (Hok x p c (y ++ o :: post)) as (x' & l & tg & -> & Hpar).
    { by rewrite Hops, Hxy, <- (assoc (++)). }
    destruct Hpar as [[[=] _]|(l' & tg' & Hp)]. rewrite Hxy. split.
    - eapply elem_of_upsert_ids. apply elem_of_app. left.
      apply elem_of_app. left. exact Hp.
    - eapply (elem_of_upsert_ids c l tg). apply elem_of_app. left.
      apply elem_of_app. right. by apply list_elem_of_singleton. }
  destruct o as [i l tg|p c].
  - rewrite upsert_ids_app in Hpre_nd. cbn in Hpre_nd.
    apply NoDup_app in Hpre_nd as (_ & Hfresh & _).
    assert (Hi : i ∉ upsert_ids pre).
    { intros Hin. apply (Hfresh i Hin). by apply list_elem_of_singleton. }
    assert (Hex : existsb (matches tg i) (nodes d) = false).
    { destruct (existsb (matches tg i) (nodes d)) eqn:Hex; [|done].
      apply existsb_elem_of in Hex as (n & Hn & [_ Hid]%matches_spec).
      destruct Hi.
      assert (Hin : n_id n ∈ n_id <$> nodes d)
        by (apply list_elem_of_fmap; eauto).
      rewrite HN, mk_nodes_ids, Hid in Hin.
      apply list_elem_of_fmap in Hin as (j & [= <-] & Hj). done. }
    assert (Hnodes : nodes (run_op d (Upsert i l tg))
                     = nodes d ++ [new_node i l tg]).
    { cbn. by rewrite upload_node_nodes, Hex. }
    cbn [run_op]. rewrite upload_node_edges.
    rewrite upserts_app, merge_pairs_app, fmap_app, app_nil_r. cbn [upserts omap list_omap].
    split; [cbn in Hnodes; by rewrite Hnodes, HN|].
    split; [done|]. split; [done|].
    intros b a. rewrite HE3.
    assert (Hold : ∀ k j, j ∈ upsert_ids pre →
              id_at (upload_node d i l tg) k j ↔ id_at d k j).
    { intros k j Hj. unfold id_at. cbn in Hnodes. rewrite Hnodes. split.
      - intros (n & [Hn|[_ Hn]]%lookup_app_Some & Hid); [eauto|].
        apply list_lookup_singleton_Some in Hn as [_ <-]. cbn in Hid.
        destruct Hi. by simplify_eq.
      - intros (n & Hn & Hid). exists n. split; [|done].
        by apply lookup_app_l_Some. }
    split; intros (p & c & Hpc & Hb & Ha); exists p, c; (split; [done|]);
      destruct (Hends p c) as [Hp Hc]; try (by apply elem_of_merge_pairs);
      by rewrite ?Hold in * by done.
  - destruct (Hok pre p c post Hops) as (pre0 & l & tg & Hpre0 & Hpar).
    destruct Hpar as [[[=] _]|(l' & tg' & Hp)].
    rewrite upserts_app, merge_pairs_app, app_nil_r. cbn [merge_pairs omap list_omap].
    split; [done|]. split; [by apply NoDup_edges_run_op|].
    assert (HE3' : ∀ b a, (b, a) ∈ edges (run_op d (MergeEdge p c))
              ↔ ∃ p' c', (p', c') ∈ merge_pairs pre ++ [(p, c)]
                  ∧ id_at (run_op d (MergeEdge p c)) b c'
                  ∧ id_at (run_op d (MergeEdge p c)) a p').
    { intros b a. cbn [run_op]. rewrite elem_of_create_relationship, HE3.
      change (id_at (create_relationship d p c)) with (id_at d). split.
      - intros [(p' & c' & Hin & ?)|[Hb Ha]].
        + exists p', c'. split; [|done]. apply elem_of_app. by left.
        + exists p, c. split; [|done]. apply elem_of_app. right.
          by apply list_elem_of_singleton.
      - intros (p' & c' & [Hin|Hin%list_elem_of_singleton]%elem_of_app & Hba).
        + left. by exists p', c'.
        + right. by simplify_eq. }
    split; [|done].
    assert (Hids : NoDup (n_id <$> nodes d)).
    { rewrite HN, mk_nodes_ids. apply (NoDup_fmap_2 Some).
      rewrite upsert_ids_app in Hpre_nd. cbn in Hpre_nd.
      by rewrite app_nil_r in Hpre_nd. }
    assert (Hc_in : c ∈ upsert_ids pre).
    { rewrite Hpre0. eapply (elem_of_upsert_ids c l tg).
      apply elem_of_app. right. by apply list_elem_of_singleton. }
    assert (Hp_in : p ∈ upsert_ids pre).
    { rewrite Hpre0. eapply (elem_of_upsert_ids p l' tg').
      apply elem_of_app. by left. }
    assert (Hsome : ∀ j, j ∈ upsert_ids pre → Some j ∈ n_id <$> nodes d).
    { intros j Hj. rewrite HN, mk_nodes_ids. apply list_elem_of_fmap. eauto. }
    destruct (find_ids_unique p 0 (nodes d) Hids (Hsome p Hp_in)) as [kp Hkp].
    destruct (find_ids_unique c 0 (nodes d) Hids (Hsome c Hc_in)) as [kc Hkc].
    cbn [run_op create_relationship edges]. rewrite Hkp, Hkc. cbn.
    destruct (decide ((kc, kp) ∈ edges d)) as [Hin|Hnin].
    + exfalso. apply HE3 in Hin as (p' & c' & Hpc & Hb & _).
      assert (id_at d kc c) as Hkc'.
      { apply elem_of_find_ids_0. rewrite Hkc. apply elem_of_cons. by left. }
      pose proof (id_at_unique d kc c' c Hb Hkc') as ->.
      apply elem_of_merge_pairs in Hpc.
      rewrite Hpre0 in Hpc.
      apply elem_of_app in Hpc as [Hpc|Hpc%list_elem_of_singleton]; [|done].
      apply list_elem_of_split in Hpc as (x & y & Hxy).
      destruct (Hok x p' c (y ++ Upsert c l tg :: MergeEdge p c :: post))
        as (x' & l2 & tg2 & -> & _).
      { rewrite Hops, Hpre0, Hxy, <- !(assoc (++)). done. }
      rewrite Hpre0, Hxy, !upsert_ids_app in Hpre_nd. cbn in Hpre_nd.
      rewrite app_nil_r in Hpre_nd.
      apply NoDup_app in Hpre_nd as (_ & Hdisj & _).
      apply (Hdisj c); [|by apply list_elem_of_singleton].
      apply elem_of_app. left. apply elem_of_app. right.
      by apply list_elem_of_singleton.
    + rewrite !length_app, HE2. done.
Qed.

End DistinctIds.

(** X20. A tree whose reached nodes carry pairwise distinct ids,
    uploaded into the empty store, gives one node per reached node, in
    pre-order, with the id and the raw label as name, and one edge per
    link of the tree and no other: the edges are pairwise distinct, as
    many as the links, and run from the node of the child to the node
    of the parent of a link. *)
Theorem upload_distinct_ids (root : node) :
  NoDup (preorder root) →
  n_id <$> nodes (run_ops empty_db (traverse_and_upload root))
    = Some <$> preorder root
  ∧ (fun n => (n_id n, n_name n))
      <$> nodes (run_ops empty_db (traverse_and_upload root))
    = (fun it => (Some it.1, Some it.2)) <$> preorder_names root
  ∧ NoDup (edges (run_ops empty_db (traverse_and_upload root)))
  ∧ length (edges (run_ops empty_db (traverse_and_upload root)))
    = length (tree_edges root)
  ∧ (∀ b a, (b, a) ∈ edges (run_ops empty_db (traverse_and_upload root))
       ↔ ∃ p c, (p, c) ∈ tree_edges root
           ∧ id_at (run_ops empty_db (traverse_and_upload root)) b c
           ∧ id_at (run_ops empty_db (traverse_and_upload root)) a p).
Proof.
  intros Hnd. unfold traverse_and_upload.
  rewrite <- (upsert_ids_recurse root None None 0) in Hnd |- *.
  rewrite <- (upsert_names_recurse root None None 0).
  pose proof (merge_pairs_recurse root None None 0) as Hmp. cbn [app] in Hmp.
  rewrite <- Hmp.
  destruct (distinct_prefix (recurse root None None 0) Hnd
              (recurse_edge_ok root None None 0)
              (recurse root None None 0) [])
    as (HN & HE1 & HE2 & HE3); [by rewrite app_nil_r|].
  split; [by rewrite HN, mk_nodes_ids|].
  split; [|done].
  rewrite HN, upsert_names_upserts, <- !list_fmap_compose. done.
Qed.

Lemma upload_distinct_ids_witness :
  length (edges (run_ops empty_db (traverse_and_upload Example.animals_tree)))
  = length (tree_edges Example.animals_tree).
Proof.
  apply (upload_distinct_ids Example.animals_tree).
  apply (bool_decide_unpack _). by vm_compute.
Defined.

(** ** No class is left out *)

Section CoverageFacts.
Context `{PyRuntime}.

Lemma build_json_tree_sound g lbls fuel nd t :
  build_json_tree fuel (children (scan g)) lbls nd = Some t →
  represents g lbls t nd.
Proof.
  revert nd t. induction fuel as [|fuel IH]; intros nd t; [done|].
  cbn [build_json_tree]. rewrite children_exact.
  destruct (mapM _ _) as [kids|] eqn:Hk; [|done]. intros [= <-].
  apply mapM_Some in Hk. cbn [represents].
  split; [done|]. split; [done|]. apply all2_Forall2, Forall2_flip.
  eapply Forall2_impl; [exact Hk|]. intros s k Hb. by apply IH.
Qed.

(** A tree that shows the hierarchy below a term holds the string of
    every term below it. *)
Lemma represents_below g lbls r c :
  below g r c → ∀ t, represents g lbls t r → str c ∈ tree_ids t.
Proof.
  induction 1 as [r|r s c Hedge _ IH]; intros [i l kids];
    cbn [represents tree_ids]; intros (-> & _ & Hkids%all2_Forall2).
  { apply elem_of_cons. by left. }
  apply elem_of_subclasses_of in Hedge.
  apply list_elem_of_lookup in Hedge as [j Hj].
  destruct (Forall2_lookup_r _ _ _ _ _ Hkids Hj) as (kid & Hkid & Hrep).
  apply elem_of_cons. right. apply list_elem_of_In, in_flat_map.
  exists kid. split; [apply list_elem_of_In, list_elem_of_lookup; eauto|].
  apply list_elem_of_In. by apply IH.
Qed.

(** In a hierarchy whose subclass relation goes up in rank, every known
    class is below, or is, a class without parent. *)
Lemma known_class_below_root g (rank : term → nat) :
  (∀ s o, subclass_edge g s o → rank s < rank o) →
  ∀ c, known_class g c → ∃ r, r ∈ implicit_roots g ∧ below g r c.
Proof.
  intros Hrank.
  set (bound := max_list (rank <$> all_classes (scan g))).
  assert (Hb : ∀ c, known_class g c → rank c ≤ bound).
  { intros c Hc%all_classes_spec.
    apply max_list_elem_of_le, list_elem_of_fmap. eauto. }
  assert (Hgen : ∀ n c, known_class g c → bound - rank c ≤ n →
            ∃ r, r ∈ implicit_roots g ∧ below g r c).
  { induction n as [|n IH]; intros c Hc Hn;
      (destruct (decide (c ∈ parents (scan g))) as [Hp|Hp];
       [|exists c; split; [|apply rtc_refl];
         apply implicit_roots_spec; split; [done|];
         by rewrite <- parents_spec]);
      apply parents_spec in Hp as (o & Hedge);
      assert (Ho : known_class g o) by (exists c, o; split; [done|by right]);
      pose proof (Hrank _ _ Hedge); pose proof (Hb o Ho).
    - lia.
    - destruct (IH o Ho) as (r & Hr & Hbelow); [lia|].
      exists r. split; [done|]. eapply rtc_r; [exact Hbelow|done]. }
  intros c Hc. by apply (Hgen (bound - rank c)).
Qed.

End CoverageFacts.

(** X21. In a hierarchy whose subclass relation goes up in rank (one
    without cycle), a conversion without root label that succeeds leaves
    no known class out: the string of every known class is the id of a
    node of one of the trees. *)
Theorem every_known_class_in_a_tree `{PyRuntime} (g : graph)
    (rank : term → nat) (fuel : nat) (trees : list node) (c : term) :
  (∀ s o, subclass_edge g s o → rank s < rank o) →
  parse_ttl_to_json fuel g None = Ok trees →
  known_class g c →
  ∃ t, t ∈ trees ∧ str c ∈ tree_ids t.
Proof.
  intros Hrank Hparse Hc.
  destruct (known_class_below_root g rank Hrank c Hc) as (r & Hr & Hbelow).
  unfold parse_ttl_to_json, resolve_roots in Hparse.
  destruct (mapM _ _) as [ts|] eqn:Hts; [|done]. injection Hparse as <-.
  apply mapM_Some in Hts. apply list_elem_of_lookup in Hr as [j Hj].
  destruct (Forall2_lookup_l _ _ _ _ _ Hts Hj) as (t & Ht & Hbuild).
  exists t. split; [apply list_elem_of_lookup; eauto|].
  eapply represents_below; [exact Hbelow|].
  by eapply build_json_tree_sound.
Qed.

Section ClosedCoverage.
#[local] Existing Instance ascii_runtime.

Lemma every_known_class_in_a_tree_witness :
  ∃ t, t ∈ [Example.animals_tree] ∧ str Example.A ∈ tree_ids t.
Proof.
  apply (every_known_class_in_a_tree Example.animals
           (fun t => if decide (t = Example.C) then 2
                     else if decide (t = Example.B) then 1 else 0) 3).
  - intros s o [Hin _]. vm_compute in Hin.
    repeat (apply elem_of_cons in Hin as [E|Hin];
            [simplify_eq; try (vm_compute; lia)|]).
    by apply elem_of_nil in Hin.
  - reflexivity.
  - exists Example.A, Example.B. split; [|by left]. split; [|done].
    apply elem_of_cons. by left.
Defined.
End ClosedCoverage.
